(** * Sinhala Sign Language LMS: the practice-mode feedback loop

    A shallow embedding of [src/App/script.js]: the prediction handler
    with its stability counter, the per-letter progress bookkeeping, the
    navigation handlers, and the WebSocket / frame-capture lifecycle.

    Conventions of the embedding.
    - Every top-level [let] of the script is a field of a record; a
      function of the script is a function on that record.
    - JavaScript numbers used as counters are [nat]; the confidence is
      the rational value of the IEEE double carried by the message, and
      [>=] on two doubles is the exact order on those rationals.
    - A statement that would raise a [TypeError] (a property read on
      [undefined]) makes the modelled function return [None]; the state
      after such an exception is not modelled.  The lemmas [step_total]
      and [run_total] show that this never happens from the initial
      state.
    - DOM writes (texts, colours, the modal, sounds) are not part of the
      state; the elements of [practice.html] are assumed to exist. *)

From Stdlib Require Import QArith.
From stdpp Require Import gmap strings list fin_maps.

Local Open Scope nat_scope.

(** ** Configuration (script.js, lines 1-20) *)

(** [const letters]: the catalog, in the order and with the very
    characters of the source file. *)
Definition letters : list string :=
  ["à¶…"; "à¶†"; "à¶‡"; "à¶ˆ"; "à¶‘"; "à¶’"; "à¶‰"; "à¶Š"; "à¶‹"; "à¶Œ"].

(** [const THRESHOLD = 0.6]: the double nearest to 6/10, which is
    5404319552844595 * 2^-53. *)
Definition THRESHOLD : Q := 5404319552844595 # 9007199254740992.

Definition REQUIRED_ATTEMPTS : nat := 3.

(** [const englishToSinhala]: backend label to catalog letter. *)
Definition englishToSinhala : gmap string string :=
  list_to_map
    [("a_", "à¶…"); ("aa_", "à¶†"); ("ae_", "à¶‡"); ("aee_", "à¶ˆ");
     ("e_", "à¶‘"); ("ee_", "à¶’"); ("i_", "à¶‰"); ("ii_", "à¶Š");
     ("u_", "à¶‹"); ("uu_", "à¶Œ")].

(** ** The session: global variables of the script (lines 22-45) *)

Module Stat.

(** One entry of [letterStats]. *)
Record t := mk { attempts : nat; successes : nat; lastCompleted : option string }.

Definition zero : t := mk 0 0 None.

(** [.attempts++], [.successes++] and [.lastCompleted = now]. *)
Definition attempt (st : t) : t := mk (S (attempts st)) (successes st) (lastCompleted st).
Definition success (st : t) : t := mk (attempts st) (S (successes st)) (lastCompleted st).
Definition complete (now : string) (st : t) : t := mk (attempts st) (successes st) (Some now).

End Stat.

(** The three numbers copied by value into [window.practiceProgress].
    Its [completed] and [stats] members are references to the very
    array and object held by [completedLetters] and [letterStats], which
    are only ever mutated in place, so they need no copy here. *)
Record Progress := {
  p_totalAttempts : nat;
  p_successfulSigns : nat;
  p_currentStreak : nat
}.

Record Session := {
  currentLetterIndex : nat;
  attempts : nat;
  correctAttempts : nat;
  totalAttempts : nat;
  successfulSigns : nat;
  currentStreak : nat;
  lastPrediction : option string;        (* null or the last mapped label *)
  predictionStabilityCount : nat;
  completedLetters : list string;
  letterStats : gmap string Stat.t;
  practiceProgress : option Progress     (* window.practiceProgress *)
}.

Definition set_currentLetterIndex (v : nat) (s : Session) : Session :=
  {| currentLetterIndex := v; attempts := attempts s;
     correctAttempts := correctAttempts s; totalAttempts := totalAttempts s;
     successfulSigns := successfulSigns s; currentStreak := currentStreak s;
     lastPrediction := lastPrediction s;
     predictionStabilityCount := predictionStabilityCount s;
     completedLetters := completedLetters s; letterStats := letterStats s;
     practiceProgress := practiceProgress s |}.

Definition set_attempts (v : nat) (s : Session) : Session :=
  {| currentLetterIndex := currentLetterIndex s; attempts := v;
     correctAttempts := correctAttempts s; totalAttempts := totalAttempts s;
     successfulSigns := successfulSigns s; currentStreak := currentStreak s;
     lastPrediction := lastPrediction s;
     predictionStabilityCount := predictionStabilityCount s;
     completedLetters := completedLetters s; letterStats := letterStats s;
     practiceProgress := practiceProgress s |}.

Definition set_correctAttempts (v : nat) (s : Session) : Session :=
  {| currentLetterIndex := currentLetterIndex s; attempts := attempts s;
     correctAttempts := v; totalAttempts := totalAttempts s;
     successfulSigns := successfulSigns s; currentStreak := currentStreak s;
     lastPrediction := lastPrediction s;
     predictionStabilityCount := predictionStabilityCount s;
     completedLetters := completedLetters s; letterStats := letterStats s;
     practiceProgress := practiceProgress s |}.

Definition set_totalAttempts (v : nat) (s : Session) : Session :=
  {| currentLetterIndex := currentLetterIndex s; attempts := attempts s;
     correctAttempts := correctAttempts s; totalAttempts := v;
     successfulSigns := successfulSigns s; currentStreak := currentStreak s;
     lastPrediction := lastPrediction s;
     predictionStabilityCount := predictionStabilityCount s;
     completedLetters := completedLetters s; letterStats := letterStats s;
     practiceProgress := practiceProgress s |}.

Definition set_successfulSigns (v : nat) (s : Session) : Session :=
  {| currentLetterIndex := currentLetterIndex s; attempts := attempts s;
     correctAttempts := correctAttempts s; totalAttempts := totalAttempts s;
     successfulSigns := v; currentStreak := currentStreak s;
     lastPrediction := lastPrediction s;
     predictionStabilityCount := predictionStabilityCount s;
     completedLetters := completedLetters s; letterStats := letterStats s;
     practiceProgress := practiceProgress s |}.

Definition set_currentStreak (v : nat) (s : Session) : Session :=
  {| currentLetterIndex := currentLetterIndex s; attempts := attempts s;
     correctAttempts := correctAttempts s; totalAttempts := totalAttempts s;
     successfulSigns := successfulSigns s; currentStreak := v;
     lastPrediction := lastPrediction s;
     predictionStabilityCount := predictionStabilityCount s;
     completedLetters := completedLetters s; letterStats := letterStats s;
     practiceProgress := practiceProgress s |}.

Definition set_lastPrediction (v : option string) (s : Session) : Session :=
  {| currentLetterIndex := currentLetterIndex s; attempts := attempts s;
     correctAttempts := correctAttempts s; totalAttempts := totalAttempts s;
     successfulSigns := successfulSigns s; currentStreak := currentStreak s;
     lastPrediction := v;
     predictionStabilityCount := predictionStabilityCount s;
     completedLetters := completedLetters s; letterStats := letterStats s;
     practiceProgress := practiceProgress s |}.

Definition set_predictionStabilityCount (v : nat) (s : Session) : Session :=
  {| currentLetterIndex := currentLetterIndex s; attempts := attempts s;
     correctAttempts := correctAttempts s; totalAttempts := totalAttempts s;
     successfulSigns := successfulSigns s; currentStreak := currentStreak s;
     lastPrediction := lastPrediction s;
     predictionStabilityCount := v;
     completedLetters := completedLetters s; letterStats := letterStats s;
     practiceProgress := practiceProgress s |}.

Definition set_completedLetters (v : list string) (s : Session) : Session :=
  {| currentLetterIndex := currentLetterIndex s; attempts := attempts s;
     correctAttempts := correctAttempts s; totalAttempts := totalAttempts s;
     successfulSigns := successfulSigns s; currentStreak := currentStreak s;
     lastPrediction := lastPrediction s;
     predictionStabilityCount := predictionStabilityCount s;
     completedLetters := v; letterStats := letterStats s;
     practiceProgress := practiceProgress s |}.

Definition set_letterStats (v : gmap string Stat.t) (s : Session) : Session :=
  {| currentLetterIndex := currentLetterIndex s; attempts := attempts s;
     correctAttempts := correctAttempts s; totalAttempts := totalAttempts s;
     successfulSigns := successfulSigns s; currentStreak := currentStreak s;
     lastPrediction := lastPrediction s;
     predictionStabilityCount := predictionStabilityCount s;
     completedLetters := completedLetters s; letterStats := v;
     practiceProgress := practiceProgress s |}.

Definition set_practiceProgress (v : option Progress) (s : Session) : Session :=
  {| currentLetterIndex := currentLetterIndex s; attempts := attempts s;
     correctAttempts := correctAttempts s; totalAttempts := totalAttempts s;
     successfulSigns := successfulSigns s; currentStreak := currentStreak s;
     lastPrediction := lastPrediction s;
     predictionStabilityCount := predictionStabilityCount s;
     completedLetters := completedLetters s; letterStats := letterStats s;
     practiceProgress := v |}.

(** The state when the script has been loaded: the initialisers of
    lines 24-36 and the [letters.forEach] of lines 39-45. *)
Definition initial : Session :=
  {| currentLetterIndex := 0; attempts := 0; correctAttempts := 0;
     totalAttempts := 0; successfulSigns := 0; currentStreak := 0;
     lastPrediction := None; predictionStabilityCount := 0;
     completedLetters := [];
     letterStats := list_to_map ((λ letter, (letter, Stat.zero)) <$> letters);
     practiceProgress := None |}.

(** ** Progress store (lines 47-68) *)

(** [loadProgress]: [x || 0] is [x] for a number; [completed || []] and
    [stats || letterStats] give back the aliased array and object. *)
Definition loadProgress (s : Session) : Session :=
  match practiceProgress s with
  | Some p =>
      set_currentStreak (p_currentStreak p)
        (set_successfulSigns (p_successfulSigns p)
           (set_totalAttempts (p_totalAttempts p) s))
  | None => s
  end.

Definition saveProgress (s : Session) : Session :=
  set_practiceProgress
    (Some {| p_totalAttempts := totalAttempts s;
             p_successfulSigns := successfulSigns s;
             p_currentStreak := currentStreak s |}) s.

(** ** Messages of the classification service *)

(** The decoded payload read by [handlePrediction]: [data.ready],
    [data.predicted_action], [data.confidence]. *)
Record Data := {
  ready : bool;
  predicted_action : string;
  confidence : Q
}.

(** [englishToSinhala[data.predicted_action] || data.predicted_action]
    (line 289).  Every value of the table is a non-empty string, hence
    truthy; a key that is not in the table yields [undefined] and the raw
    label is kept. *)
Definition detectedSinhala (data : Data) : string :=
  default (predicted_action data) (englishToSinhala !! predicted_action data).

(** What a confirmed prediction is handed to: [handleCorrectSign()] or
    [handleIncorrectSign(detected)]. *)
Inductive Verdict :=
| Correct
| Incorrect (detected : string).

(** ** Progress tracking (lines 319-410) *)

(** [completeCurrentLetter] (lines 393-410); [now] is the value of
    [new Date().toISOString()]. *)
Definition completeCurrentLetter (now : string) (s : Session) : option Session :=
  letter ← letters !! currentLetterIndex s;
  s1 ← (if decide (letter ∈ completedLetters s) then Some s
        else
          st ← letterStats s !! letter;
          Some (set_letterStats (<[letter := Stat.complete now st]> (letterStats s))
                  (set_completedLetters (completedLetters s ++ [letter]) s)));
  Some (saveProgress s1).

(** [handleCorrectSign] (lines 320-362). *)
Definition handleCorrectSign (now : string) (s : Session) : option Session :=
  if decide (REQUIRED_ATTEMPTS ≤ correctAttempts s) then Some s
  else
    let s1 :=
      set_currentStreak (S (currentStreak s))
        (set_successfulSigns (S (successfulSigns s))
           (set_totalAttempts (S (totalAttempts s))
              (set_attempts (S (attempts s))
                 (set_correctAttempts (S (correctAttempts s)) s)))) in
    letter ← letters !! currentLetterIndex s1;
    st ← letterStats s1 !! letter;
    let s2 := set_letterStats
                (<[letter := Stat.success (Stat.attempt st)]> (letterStats s1)) s1 in
    s3 ← (if decide (REQUIRED_ATTEMPTS ≤ correctAttempts s2)
          then completeCurrentLetter now s2
          else Some s2);
    Some (saveProgress s3).

(** [handleIncorrectSign] (lines 365-390); the argument [detected] is
    only shown in the feedback text. *)
Definition handleIncorrectSign (detected : string) (s : Session) : option Session :=
  let s1 :=
    set_currentStreak 0
      (set_totalAttempts (S (totalAttempts s))
         (set_attempts (S (attempts s)) s)) in
  letter ← letters !! currentLetterIndex s1;
  st ← letterStats s1 !! letter;
  Some (saveProgress
          (set_letterStats (<[letter := Stat.attempt st]> (letterStats s1)) s1)).

(** ** The prediction handler (lines 277-317) *)

(** Lines 291-297: the stability counter, on the mapped label. *)
Definition updateStability (detected : string) (s : Session) : Session :=
  if decide (lastPrediction s = Some detected)
  then set_predictionStabilityCount (S (predictionStabilityCount s)) s
  else set_lastPrediction (Some detected) (set_predictionStabilityCount 1 s).

(** Lines 314-315. *)
Definition resetStability (s : Session) : Session :=
  set_lastPrediction None (set_predictionStabilityCount 0 s).

(** [handlePrediction]: the new state together with the verdict handed
    to the progress tracker, if the prediction was confirmed. *)
Definition handlePrediction (now : string) (data : Data) (s : Session)
  : option (Session * option Verdict) :=
  let expectedLetter := letters !! currentLetterIndex s in
  if negb (ready data) then Some (s, None)
  else
    let detected := detectedSinhala data in
    let s1 := updateStability detected s in
    if bool_decide (3 ≤ predictionStabilityCount s1)
       && Qle_bool THRESHOLD (confidence data)
    then
      if decide (Some detected = expectedLetter)
      then s2 ← handleCorrectSign now s1; Some (resetStability s2, Some Correct)
      else s2 ← handleIncorrectSign detected s1;
           Some (resetStability s2, Some (Incorrect detected))
    else Some (s1, None).

(** ** Navigation (lines 192-202, 225-232, 436-455) *)

(** [moveToNextLetter]; [startOver] is the answer to the [confirm]
    dialog, which is only asked past the last letter. *)
Definition moveToNextLetter (startOver : bool) (s : Session) : Session :=
  let s1 := set_currentLetterIndex (S (currentLetterIndex s)) s in
  let reset (s : Session) :=
    set_lastPrediction None
      (set_predictionStabilityCount 0
         (set_correctAttempts 0 (set_attempts 0 s))) in
  if decide (length letters ≤ currentLetterIndex s1) then
    if startOver then reset (set_currentLetterIndex 0 s1)
    else set_currentLetterIndex (length letters - 1) s1
  else reset s1.

(** The click listener of the grid item built for [index] (lines
    225-232); [switch] is the answer to its [confirm] dialog. *)
Definition letterItemClick (index : nat) (switch : bool) (s : Session) : Session :=
  if switch
  then set_correctAttempts 0 (set_attempts 0 (set_currentLetterIndex index s))
  else s.

(** The click listener of the skip button (lines 198-202). *)
Definition skipClick (sure startOver : bool) (s : Session) : Session :=
  if sure then moveToNextLetter startOver s else s.

(** [initPracticeMode] (lines 184-203): apart from rendering, it reloads
    the saved progress. *)
Definition initPracticeMode (s : Session) : Session := loadProgress s.

(** ** Runs of the event loop *)

(** What the single-threaded event loop delivers to the tracker: a
    decoded service message (with the clock value of that moment), the
    clicks with the answers given to their [confirm] dialogs, and the
    [initPracticeMode] call made by each [ws.onopen]. *)
Inductive event :=
| Message (now : string) (data : Data)
| NextClick (startOver : bool)
| SkipClick (sure startOver : bool)
| GridClick (index : nat) (switch : bool)
| PracticeInit.

(** There is a grid item, hence a listener, only for the indices of
    [letters]. *)
Definition step (e : event) (s : Session) : option (Session * option Verdict) :=
  match e with
  | Message now data => handlePrediction now data s
  | NextClick startOver => Some (moveToNextLetter startOver s, None)
  | SkipClick sure startOver => Some (skipClick sure startOver s, None)
  | GridClick index switch =>
      if decide (index < length letters)
      then Some (letterItemClick index switch s, None)
      else Some (s, None)
  | PracticeInit => Some (initPracticeMode s, None)
  end.

(** The final state and the verdicts handed over, in order. *)
Fixpoint run (evs : list event) (s : Session) : option (Session * list Verdict) :=
  match evs with
  | [] => Some (s, [])
  | e :: evs =>
      '(s1, out) ← step e s;
      '(s2, outs) ← run evs s1;
      Some (s2, option_list out ++ outs)
  end.

(** The mapped labels of the accepted (ready) messages of a run. *)
Definition acceptedLabel (e : event) : option string :=
  match e with
  | Message _ data => if ready data then Some (detectedSinhala data) else None
  | _ => None
  end.

Definition acceptedLabels (evs : list event) : list string := omap acceptedLabel evs.

Definition three_in_a_row (labels : list string) : Prop :=
  ∃ pre l post, labels = pre ++ [l; l; l] ++ post.

(** A state in which no statement of the handlers can throw: the
    current index is inside the catalog and every letter has its entry
    in [letterStats]. *)
Definition wf (s : Session) : Prop :=
  currentLetterIndex s < length letters
  ∧ Forall (λ letter, is_Some (letterStats s !! letter)) letters.

(** ** Notions and example inputs used in the statements *)

(** The run length that lines 292-297 leave in [predictionStabilityCount]. *)
Definition runLength (detected : string) (s : Session) : nat :=
  if decide (lastPrediction s = Some detected)
  then S (predictionStabilityCount s) else 1.

(** The three ways through [handlePrediction]. *)
Inductive handled (now : string) (data : Data) (s : Session)
  : Session → option Verdict → Prop :=
| handled_not_ready :
    ready data = false →
    handled now data s s None
| handled_candidate :
    ready data = true →
    ¬ (3 ≤ runLength (detectedSinhala data) s ∧ (THRESHOLD <= confidence data)%Q) →
    handled now data s (updateStability (detectedSinhala data) s) None
| handled_correct s2 :
    ready data = true →
    3 ≤ runLength (detectedSinhala data) s →
    (THRESHOLD <= confidence data)%Q →
    letters !! currentLetterIndex s = Some (detectedSinhala data) →
    handleCorrectSign now (updateStability (detectedSinhala data) s) = Some s2 →
    handled now data s (resetStability s2) (Some Correct)
| handled_incorrect s2 :
    ready data = true →
    3 ≤ runLength (detectedSinhala data) s →
    (THRESHOLD <= confidence data)%Q →
    letters !! currentLetterIndex s ≠ Some (detectedSinhala data) →
    handleIncorrectSign (detectedSinhala data) (updateStability (detectedSinhala data) s)
      = Some s2 →
    handled now data s (resetStability s2) (Some (Incorrect (detectedSinhala data))).

(** The counter never runs ahead of the labels received: when it is
    [n > 0], the accepted labels end with [n] copies of [lastPrediction]. *)
Definition run_tail (s : Session) (labels : list string) : Prop :=
  predictionStabilityCount s = 0
  ∨ ∃ l pre, lastPrediction s = Some l
             ∧ labels = pre ++ replicate (predictionStabilityCount s) l.

(** An accepted observation of label [l] with a confidence that passes
    the threshold. *)
Definition confident (l : string) (e : event) : Prop :=
  match e with
  | Message _ data =>
      ready data = true ∧ detectedSinhala data = l
      ∧ (THRESHOLD <= confidence data)%Q
  | _ => False
  end.

(** How far the state already is into a run of [l]. *)
Definition phase (l : string) (s : Session) : nat :=
  if decide (lastPrediction s = Some l) then predictionStabilityCount s else 0.

(** A frame of the first letter, well above the threshold. *)
Definition frame_a : event :=
  Message "2025-01-01T00:00:00.000Z"
    {| ready := true; predicted_action := "a_"; confidence := 9 # 10 |}.

(** Two frames of the first letter already counted. *)
Definition heldTwice : Session :=
  set_lastPrediction (Some "à¶…") (set_predictionStabilityCount 2 initial).

(** The fields a round reset writes, and those no navigation touches. *)
Definition roundCleared (s : Session) : Prop :=
  attempts s = 0 ∧ correctAttempts s = 0
  ∧ lastPrediction s = None ∧ predictionStabilityCount s = 0.

Definition sameTotals (s s' : Session) : Prop :=
  totalAttempts s' = totalAttempts s
  ∧ successfulSigns s' = successfulSigns s
  ∧ currentStreak s' = currentStreak s
  ∧ completedLetters s' = completedLetters s
  ∧ letterStats s' = letterStats s
  ∧ practiceProgress s' = practiceProgress s.

(** What is read off a state in the examples. *)
Definition roundView (s : Session) : nat * nat * nat * option string * nat :=
  (currentLetterIndex s, attempts s, correctAttempts s,
   lastPrediction s, predictionStabilityCount s).

Definition frame_uu : event :=
  Message "2025-01-01T00:00:01.000Z"
    {| ready := true; predicted_action := "uu_"; confidence := 9 # 10 |}.

(** Jump to the last letter, sign it once (three frames), and hold the
    pose for two more frames. *)
Definition practisingLast : list event :=
  GridClick 9 true :: replicate 5 frame_uu.

(** The first letter practised to mastery: nine frames, three
    confirmations. *)
Definition masterFirst : list event := replicate 9 frame_a.

(** A round that has reached the required number of correct attempts,
    with two more frames of the same letter already counted. *)
Definition saturatedRound : Session := set_correctAttempts 3 heldTwice.

(** The counters a confirmed observation may touch, and the attempts
    recorded for the first letter. *)
Definition countersView (s : Session) : nat * nat * nat * nat * nat * option nat :=
  (attempts s, correctAttempts s, totalAttempts s, successfulSigns s,
   currentStreak s, Stat.attempts <$> letterStats s !! "à¶…").

Definition frame_i : event :=
  Message "2025-01-01T00:00:03.000Z"
    {| ready := true; predicted_action := "i_"; confidence := 9 # 10 |}.

(** What mastering a letter may touch. *)
Definition masteryView (s : Session) : list string * nat * option nat :=
  (completedLetters s, successfulSigns s,
   Stat.successes <$> letterStats s !! "à¶…").

(** Leave the first letter and jump back to it, then practise it to
    mastery once more. *)
Definition practiseAgain : list event :=
  [GridClick 1 true; GridClick 0 true] ++ masterFirst.

(** The first letter mastered, then selected again in the grid. *)
Definition masteredAgain : Session :=
  set_completedLetters ["à¶…"] initial.

(** An observation of the first letter by its backend label, and one
    whose raw label already is the letter. *)
Definition rawEnglish : Data :=
  {| ready := true; predicted_action := "a_"; confidence := 9 # 10 |}.

Definition rawSinhala : Data :=
  {| ready := true; predicted_action := "à¶…"; confidence := 9 # 10 |}.

(** * Connection and frame capture (lines 70-181) *)

(** [WebSocket.readyState]. *)
Inductive ReadyState := CONNECTING | OPEN | CLOSING | CLOSED.

Global Instance ReadyState_eq_dec : EqDecision ReadyState.
Proof. solve_decision. Defined.

(** The functions the script hands to [setTimeout] that touch the
    state; the other timeouts only rewrite the feedback box. *)
Inductive Callback := InitWebSocket.

Global Instance Callback_eq_dec : EqDecision Callback.
Proof. solve_decision. Defined.

(** The globals [video], [ws], [captureTimer], and what the browser
    holds for the page: every [WebSocket] constructed so far with its
    [readyState] (a socket is named by its position), the live
    [setInterval] timers, the pending [setTimeout] calls with their
    delay in milliseconds, and the frames handed to [send]. *)
Record Page := {
  video : bool;
  ws : option nat;
  captureTimer : option nat;
  sockets : list ReadyState;
  intervals : list nat;
  nextTimerId : nat;
  timeouts : list (nat * Callback);
  sent : list (nat * string)
}.

Definition set_ws (v : option nat) (p : Page) : Page :=
  {| video := video p; ws := v; captureTimer := captureTimer p;
     sockets := sockets p; intervals := intervals p;
     nextTimerId := nextTimerId p; timeouts := timeouts p; sent := sent p |}.

Definition set_captureTimer (v : option nat) (p : Page) : Page :=
  {| video := video p; ws := ws p; captureTimer := v;
     sockets := sockets p; intervals := intervals p;
     nextTimerId := nextTimerId p; timeouts := timeouts p; sent := sent p |}.

Definition set_sockets (v : list ReadyState) (p : Page) : Page :=
  {| video := video p; ws := ws p; captureTimer := captureTimer p;
     sockets := v; intervals := intervals p;
     nextTimerId := nextTimerId p; timeouts := timeouts p; sent := sent p |}.

Definition set_intervals (v : list nat) (p : Page) : Page :=
  {| video := video p; ws := ws p; captureTimer := captureTimer p;
     sockets := sockets p; intervals := v;
     nextTimerId := nextTimerId p; timeouts := timeouts p; sent := sent p |}.

Definition set_nextTimerId (v : nat) (p : Page) : Page :=
  {| video := video p; ws := ws p; captureTimer := captureTimer p;
     sockets := sockets p; intervals := intervals p;
     nextTimerId := v; timeouts := timeouts p; sent := sent p |}.

Definition set_timeouts (v : list (nat * Callback)) (p : Page) : Page :=
  {| video := video p; ws := ws p; captureTimer := captureTimer p;
     sockets := sockets p; intervals := intervals p;
     nextTimerId := nextTimerId p; timeouts := v; sent := sent p |}.

Definition set_sent (v : list (nat * string)) (p : Page) : Page :=
  {| video := video p; ws := ws p; captureTimer := captureTimer p;
     sockets := sockets p; intervals := intervals p;
     nextTimerId := nextTimerId p; timeouts := timeouts p; sent := v |}.

(** The page once [initWebcam] has found the video element and the
    stream plays: no socket yet, no timer. *)
Definition pageLoaded : Page :=
  {| video := true; ws := None; captureTimer := None; sockets := [];
     intervals := []; nextTimerId := 1; timeouts := []; sent := [] |}.

(** [ws.readyState], when [ws] is set. *)
Definition readyState (p : Page) : option ReadyState :=
  k ← ws p; sockets p !! k.

(** [ws && ws.readyState === WebSocket.OPEN]. *)
Definition wsOpen (p : Page) : bool := bool_decide (readyState p = Some OPEN).

(** [initWebSocket] (lines 104-137): [ws = new WebSocket(url)], with
    no test of the socket [ws] held before; the four handlers it installs
    are [onopen], [onmessage], [onerror] and [onclose] below. *)
Definition initWebSocket (p : Page) : Page :=
  set_ws (Some (length (sockets p))) (set_sockets (sockets p ++ [CONNECTING]) p).

(** [stopCapturing] (lines 176-181). *)
Definition stopCapturing (p : Page) : Page :=
  match captureTimer p with
  | Some id =>
      set_captureTimer None (set_intervals (filter (λ i, i ≠ id) (intervals p)) p)
  | None => p
  end.

(** [startCapturing] (lines 140-173), up to the [setInterval]. *)
Definition startCapturing (p : Page) : Page :=
  if negb (video p) || negb (wsOpen p) then p
  else if captureTimer p is Some _ then p
  else
    set_captureTimer (Some (nextTimerId p))
      (set_intervals (intervals p ++ [nextTimerId p])
         (set_nextTimerId (S (nextTimerId p)) p)).

(** One run of the interval callback [capture] (lines 154-170): the
    page, and whether a frame was drawn and handed to [toBlob]. *)
Definition capture (p : Page) : Page * bool :=
  if negb (wsOpen p) then (stopCapturing p, false) else (p, true).

(** The end of the encoding chain (lines 162-168): [toBlob] calls back
    with a blob or [null]; the buffer of a blob is sent if [ws] is open
    at that moment. *)
Definition frameEncoded (blob : option string) (p : Page) : Page :=
  match blob, ws p with
  | Some buffer, Some k =>
      if bool_decide (sockets p !! k = Some OPEN)
      then set_sent (sent p ++ [(k, buffer)]) p
      else p
  | _, _ => p
  end.

(** The handlers installed on each socket; they only use the globals. *)
Definition onopen (p : Page) : Page := startCapturing p.

Definition onerror (p : Page) : Page := p.

Definition onclose (p : Page) : Page :=
  let p1 := stopCapturing p in
  set_timeouts (timeouts p1 ++ [(2000, InitWebSocket)])
    (set_nextTimerId (S (nextTimerId p1)) p1).

Definition call (cb : Callback) (p : Page) : Page :=
  match cb with InitWebSocket => initWebSocket p end.

(** What the browser does to the page.  A socket that opens gets
    [readyState = OPEN] and an [open] event.  A connection that fails
    gets [readyState = CLOSED], an [error] event and then a [close]
    event; one that is closed without an error gets only the [close]
    event.  A timer tick runs [capture] if its interval is live; a timeout
    that fires is removed and called. *)
Inductive browserEvent :=
| MetadataLoaded
| Opened (k : nat)
| Errored (k : nat)
| Closed (k : nat)
| Tick (id : nat)
| Encoded (blob : option string)
| TimeoutFired (j : nat).

Definition deliver (e : browserEvent) (p : Page) : Page :=
  match e with
  | MetadataLoaded => initWebSocket p
  | Opened k => onopen (set_sockets (<[k := OPEN]> (sockets p)) p)
  | Errored k => onerror (set_sockets (<[k := CLOSED]> (sockets p)) p)
  | Closed k => onclose (set_sockets (<[k := CLOSED]> (sockets p)) p)
  | Tick id => if decide (id ∈ intervals p) then fst (capture p) else p
  | Encoded blob => frameEncoded blob p
  | TimeoutFired j =>
      match timeouts p !! j with
      | Some (_, cb) => call cb (set_timeouts (delete j (timeouts p)) p)
      | None => p
      end
  end.

Definition deliverAll (es : list browserEvent) (p : Page) : Page :=
  foldl (λ p e, deliver e p) p es.

(** The two ways a connection is lost. *)
Inductive Failure := TransportError | AbruptClose.

Definition failureEvents (f : Failure) (k : nat) : list browserEvent :=
  match f with
  | TransportError => [Errored k; Closed k]
  | AbruptClose => [Closed k]
  end.

(** The number of sockets that are not closed. *)
Definition liveSockets (p : Page) : nat :=
  length (filter (λ r, r ≠ CLOSED) (sockets p)).

(** The capture timer is the only live interval. *)
Definition oneTimer (p : Page) : Prop :=
  intervals p = match captureTimer p with Some id => [id] | None => [] end.

(** The page with its first connection being made, and with it open and
    the capture timer running. *)
Definition connecting : Page := deliverAll [MetadataLoaded] pageLoaded.

Definition connected : Page := deliverAll [MetadataLoaded; Opened 0] pageLoaded.

(** * The rest of the script *)

(** ** Bookkeeping kept by the handlers *)

(** The copy in [window.practiceProgress], when there is one, holds the
    current totals. *)
Definition progressSaved (s : Session) : Prop :=
  match practiceProgress s with
  | Some p =>
      p_totalAttempts p = totalAttempts s
      ∧ p_successfulSigns p = successfulSigns s
      ∧ p_currentStreak p = currentStreak s
  | None => True
  end.

(** The order between the counters shown by [updateStats],
    [updateAttemptsIndicator] and [showCompletionModal]. *)
Definition countersOrdered (s : Session) : Prop :=
  correctAttempts s ≤ attempts s
  ∧ attempts s ≤ totalAttempts s
  ∧ correctAttempts s ≤ successfulSigns s
  ∧ currentStreak s ≤ successfulSigns s
  ∧ successfulSigns s ≤ totalAttempts s.

(** A field of the per-letter statistics, added up over the catalog. *)
Definition statTotal (f : Stat.t → nat) (stats : gmap string Stat.t) : nat :=
  sum_list ((λ letter, from_option f 0 (stats !! letter)) <$> letters).

Global Arguments statTotal : simpl never.

(** [completedLetters] lists catalog letters, each once, and exactly
    those whose statistics carry a completion time. *)
Definition completedConsistent (s : Session) : Prop :=
  NoDup (completedLetters s)
  ∧ (∀ letter, letter ∈ completedLetters s → letter ∈ letters)
  ∧ (∀ letter st, letterStats s !! letter = Some st →
       (letter ∈ completedLetters s ↔ is_Some (Stat.lastCompleted st))).

Definition consistent (s : Session) : Prop :=
  progressSaved s ∧ countersOrdered s ∧ completedConsistent s
  ∧ statTotal Stat.attempts (letterStats s) = totalAttempts s
  ∧ statTotal Stat.successes (letterStats s) = successfulSigns s.

(** The counters after lines 326-330 of [handleCorrectSign]. *)
Definition signCounted (s : Session) : Session :=
  set_currentStreak (S (currentStreak s))
    (set_successfulSigns (S (successfulSigns s))
       (set_totalAttempts (S (totalAttempts s))
          (set_attempts (S (attempts s))
             (set_correctAttempts (S (correctAttempts s)) s)))).

(** Two states with the same counters, statistics and saved copy. *)
Definition sameBooks (s s' : Session) : Prop :=
  attempts s' = attempts s ∧ correctAttempts s' = correctAttempts s
  ∧ sameTotals s s'.

(** [updateAttemptsIndicator] (lines 262-274): one dot per required
    attempt, in order; [true] for a dot that gets the class [completed]. *)
Definition updateAttemptsIndicator (s : Session) : list bool :=
  (λ i, bool_decide (i < correctAttempts s)) <$> seq 0 REQUIRED_ATTEMPTS.

(** An accepted observation of label [l] whose confidence is below the
    threshold. *)
Definition faint (l : string) (e : event) : Prop :=
  match e with
  | Message _ data =>
      ready data = true ∧ detectedSinhala data = l
      ∧ ¬ (THRESHOLD <= confidence data)%Q
  | _ => False
  end.

(** ** The click listeners registered by [initPracticeMode] *)

(** [initPracticeMode] (lines 184-203) also calls [addEventListener] on
    the next and the skip button, each time with a fresh arrow function,
    so every call adds one more listener; none is ever removed. *)
Record Practice := {
  session : Session;
  nextListeners : nat;
  skipListeners : nat
}.

Definition practiceLoaded : Practice :=
  {| session := initial; nextListeners := 0; skipListeners := 0 |}.

Definition initPracticeModeOnOpen (pr : Practice) : Practice :=
  {| session := initPracticeMode (session pr);
     nextListeners := S (nextListeners pr);
     skipListeners := S (skipListeners pr) |}.

(** One click on the next button runs every registered listener, in
    the order of registration; [startOver i] is the answer given if the
    [i]-th of them asks whether to start over. *)
Definition nextButtonClick (startOver : nat → bool) (pr : Practice) : Practice :=
  {| session := foldl (λ s i, moveToNextLetter (startOver i) s) (session pr)
                  (seq 0 (nextListeners pr));
     nextListeners := nextListeners pr;
     skipListeners := skipListeners pr |}.

(** ** The service address (lines 94-101) *)

(** [buildWsUrl], from [window.location.protocol] and
    [window.location.host]; an empty host is falsy and replaced. *)
Definition buildWsUrl (protocol host : string) : string :=
  let wsProtocol := if decide (protocol = "https:") then "wss" else "ws" in
  let host := if decide (host = "") then "localhost:8001" else host in
  wsProtocol +:+ "://" +:+ host +:+ "/ws/predict".

(** ** Invariants of the connection *)

(** [ws] is the socket constructed last, every pending timeout is a
    reconnect after 2000 ms, and every frame went to a socket that
    exists. *)
Definition socketsInOrder (p : Page) : Prop :=
  match ws p with
  | Some k => S k = length (sockets p)
  | None => sockets p = []
  end
  ∧ Forall (λ t, t = (2000, InitWebSocket)) (timeouts p)
  ∧ Forall (λ frame, frame.1 < length (sockets p)) (sent p).

(** * Keyboard navigation and preferences (script.js, lines 534-1189) *)

Inductive ArrowKey := ArrowUp | ArrowDown | ArrowLeft | ArrowRight.

Definition opposite (key : ArrowKey) : ArrowKey :=
  match key with
  | ArrowUp => ArrowDown
  | ArrowDown => ArrowUp
  | ArrowLeft => ArrowRight
  | ArrowRight => ArrowLeft
  end.

(** [navigateLetterGrid] (lines 690-717): the item that gets the focus,
    if any.  [cols] is [Math.floor(grid.offsetWidth / 80)], [items] the
    number of grid items and [currentIndex] the result of [indexOf], which
    is -1 when the focused element is not an item. *)
Definition navigateLetterGrid (key : ArrowKey) (cols items currentIndex : Z)
  : option Z :=
  let nextIndex :=
    match key with
    | ArrowRight => currentIndex + 1
    | ArrowLeft => currentIndex - 1
    | ArrowDown => currentIndex + cols
    | ArrowUp => currentIndex - cols
    end%Z in
  if decide (0 ≤ nextIndex ∧ nextIndex < items)%Z then Some nextIndex else None.

(** [navigateAnswerOptions] (lines 719-740).  [%] is the truncating
    remainder; with no option at all it yields [NaN], which is not
    [>= 0]. *)
Definition navigateAnswerOptions (key : ArrowKey) (options currentIndex : Z)
  : option Z :=
  if decide (options = 0%Z) then None
  else
    let nextIndex :=
      match key with
      | ArrowRight | ArrowDown => Z.rem (currentIndex + 1) options
      | ArrowLeft | ArrowUp => Z.rem (currentIndex - 1 + options) options
      end in
    if decide (0 ≤ nextIndex)%Z then Some nextIndex else None.

(** The fields of [AccessibilityManager] set by its constructor (lines
    540-549); [announcer] tells whether the live region exists, and
    [announced] lists the messages written to it. *)
Record Manager := {
  isInitialized : bool;
  preferences : option (bool * bool);
  announcer : bool;
  keyboardNavigation : bool;
  highContrast : bool;
  reducedMotion : bool;
  announced : list string
}.

(** What [window.matchMedia] answers for the three queries of
    [detectSystemPreferences]. *)
Record Media := {
  prefersReducedMotion : bool;
  prefersHighContrast : bool;
  prefersDark : bool
}.

(** [announce] (lines 578-588). *)
Definition announce (message : string) (m : Manager) : Manager :=
  if announcer m
  then {| isInitialized := isInitialized m; preferences := preferences m;
          announcer := announcer m; keyboardNavigation := keyboardNavigation m;
          highContrast := highContrast m; reducedMotion := reducedMotion m;
          announced := announced m ++ [message] |}
  else m.

Definition set_highContrast (v : bool) (m : Manager) : Manager :=
  {| isInitialized := isInitialized m; preferences := preferences m;
     announcer := announcer m; keyboardNavigation := keyboardNavigation m;
     highContrast := v; reducedMotion := reducedMotion m;
     announced := announced m |}.

Definition set_reducedMotion (v : bool) (m : Manager) : Manager :=
  {| isInitialized := isInitialized m; preferences := preferences m;
     announcer := announcer m; keyboardNavigation := keyboardNavigation m;
     highContrast := highContrast m; reducedMotion := v;
     announced := announced m |}.

(** Lines 952-962 and 985-994. *)
Definition enableHighContrast (m : Manager) : Manager :=
  announce "High contrast mode enabled" (set_highContrast true m).

Definition disableHighContrast (m : Manager) : Manager :=
  announce "High contrast mode disabled" (set_highContrast false m).

Definition enableReducedMotion (m : Manager) : Manager :=
  announce "Reduced motion enabled" (set_reducedMotion true m).

(** [savePreferences] and [loadPreferences] (lines 1144-1155): the item
    [accessibility-preferences] of [localStorage] holds the JSON text of
    the two flags; it is modelled by the flags themselves. *)
Definition savePreferences (m : Manager) : option (bool * bool) :=
  Some (highContrast m, reducedMotion m).

(** [toggleHighContrast] (lines 964-971): the manager and the stored
    item. *)
Definition toggleHighContrast (m : Manager) : Manager * option (bool * bool) :=
  let m1 := if highContrast m then disableHighContrast m else enableHighContrast m in
  (m1, savePreferences m1).

(** [detectSystemPreferences] (lines 591-606).  The class has no method
    [enableDarkMode], so the call of line 604 raises a [TypeError]. *)
Definition detectSystemPreferences (media : Media) (m : Manager) : option Manager :=
  let m1 := if prefersReducedMotion media then enableReducedMotion m else m in
  let m2 := if prefersHighContrast media then enableHighContrast m1 else m1 in
  if prefersDark media then None else Some m2.

(** [init] (lines 551-566); the set-up calls after
    [detectSystemPreferences] only add elements and listeners. *)
Definition init (media : Media) (m : Manager) : option Manager :=
  if isInitialized m then Some m
  else
    let m1 :=
      {| isInitialized := isInitialized m; preferences := preferences m;
         announcer := true; keyboardNavigation := keyboardNavigation m;
         highContrast := highContrast m; reducedMotion := reducedMotion m;
         announced := announced m |} in
    m2 ← detectSystemPreferences media m1;
    Some {| isInitialized := true; preferences := preferences m2;
            announcer := announcer m2; keyboardNavigation := keyboardNavigation m2;
            highContrast := highContrast m2; reducedMotion := reducedMotion m2;
            announced := announced m2 |}.

(** The constructor (lines 540-549); [stored] is the item of
    [localStorage] read by [loadPreferences]. *)
Definition newManager (stored : option (bool * bool)) (media : Media)
  : option Manager :=
  init media
    {| isInitialized := false; preferences := stored; announcer := false;
       keyboardNavigation := false; highContrast := false;
       reducedMotion := false; announced := [] |}.

(** * Properties *)

(** ** The handlers never throw from a well-formed state *)

Lemma wf_current s :
  wf s → ∃ letter st,
    letters !! currentLetterIndex s = Some letter ∧ letterStats s !! letter = Some st.
Proof.
  intros [Hi Hst].
  destruct (lookup_lt_is_Some_2 letters _ Hi) as [letter Hl].
  destruct (Forall_lookup_1 _ _ _ _ Hst Hl) as [st Hs].
  by exists letter, st.
Qed.

Lemma stats_insert_wf (m : gmap string Stat.t) letter st :
  Forall (λ l, is_Some (m !! l)) letters →
  Forall (λ l, is_Some (<[letter := st]> m !! l)) letters.
Proof.
  intros H. eapply Forall_impl; [ exact H | ].
  intros l Hl. apply lookup_insert_is_Some.
  destruct (decide (letter = l)); auto.
Qed.

Lemma wf_initial : wf initial.
Proof.
  split; [ cbn; lia | ].
  vm_compute. repeat constructor; eexists; reflexivity.
Qed.

Lemma completeCurrentLetter_total now s :
  wf s → ∃ s', completeCurrentLetter now s = Some s' ∧ wf s'
    ∧ currentLetterIndex s' = currentLetterIndex s
    ∧ attempts s' = attempts s
    ∧ correctAttempts s' = correctAttempts s
    ∧ totalAttempts s' = totalAttempts s
    ∧ successfulSigns s' = successfulSigns s
    ∧ currentStreak s' = currentStreak s
    ∧ lastPrediction s' = lastPrediction s
    ∧ predictionStabilityCount s' = predictionStabilityCount s.
Proof.
  intros Hwf. destruct (wf_current s Hwf) as (letter & st & Hl & Hs).
  destruct Hwf as [Hi Hst].
  unfold completeCurrentLetter. rewrite Hl. cbn.
  case_decide; cbn.
  - eexists; split; [ reflexivity | ]. by split_and!.
  - rewrite Hs. cbn. eexists; split; [ reflexivity | ].
    split_and!; try done. split; [ done | by apply stats_insert_wf ].
Qed.

Lemma handleCorrectSign_total now s :
  wf s → ∃ s', handleCorrectSign now s = Some s' ∧ wf s'
    ∧ currentLetterIndex s' = currentLetterIndex s
    ∧ lastPrediction s' = lastPrediction s
    ∧ predictionStabilityCount s' = predictionStabilityCount s
    ∧ correctAttempts s' =
        (if decide (REQUIRED_ATTEMPTS ≤ correctAttempts s)
         then correctAttempts s else S (correctAttempts s)).
Proof.
  intros Hwf. destruct (wf_current s Hwf) as (letter & st & Hl & Hs).
  unfold handleCorrectSign. case_decide as Hsat.
  { exists s. by split_and!. }
  cbn. rewrite Hl. cbn. rewrite Hs. cbn.
  match goal with
  | |- context [completeCurrentLetter now ?x] => set (s2 := x)
  end.
  assert (Hwf2 : wf s2).
  { destruct Hwf as [Hi Hst]. split; [ exact Hi | ]. cbn. by apply stats_insert_wf. }
  case_decide as Hdone.
  - destruct (completeCurrentLetter_total now s2 Hwf2)
      as (s3 & -> & [Hi3 Hst3] & Hidx & _ & Hca & _ & _ & _ & Hlp & Hpc).
    cbn. eexists; split; [ reflexivity | ].
    split_and!; cbn; try done; congruence.
  - cbn. eexists; split; [ reflexivity | ].
    destruct Hwf2. by split_and!.
Qed.

Lemma handleIncorrectSign_total detected s :
  wf s → ∃ s', handleIncorrectSign detected s = Some s' ∧ wf s'
    ∧ currentLetterIndex s' = currentLetterIndex s
    ∧ lastPrediction s' = lastPrediction s
    ∧ predictionStabilityCount s' = predictionStabilityCount s
    ∧ correctAttempts s' = correctAttempts s.
Proof.
  intros Hwf. destruct (wf_current s Hwf) as (letter & st & Hl & Hs).
  destruct Hwf as [Hi Hst].
  unfold handleIncorrectSign. cbn. rewrite Hl. cbn. rewrite Hs. cbn.
  eexists; split; [ reflexivity | ].
  split_and!; try done. split; [ done | by apply stats_insert_wf ].
Qed.

Lemma updateStability_wf detected s : wf s → wf (updateStability detected s).
Proof. intros [Hi Hst]. unfold updateStability. by case_decide. Qed.

Lemma resetStability_wf s : wf s → wf (resetStability s).
Proof. by intros [Hi Hst]. Qed.

Lemma updateStability_eq detected s :
  updateStability detected s =
  set_lastPrediction (Some detected)
    (set_predictionStabilityCount (runLength detected s) s).
Proof.
  unfold updateStability, runLength. destruct s as [i a c t ss cs lp n cl st pp].
  cbn. case_decide as H; cbn in *; by subst.
Qed.

Lemma handlePrediction_handled now data s :
  wf s → ∃ s' out, handlePrediction now data s = Some (s', out)
                   ∧ handled now data s s' out ∧ wf s'.
Proof.
  intros Hwf. unfold handlePrediction.
  destruct (ready data) eqn:Hready; cbn.
  2:{ exists s, None. split_and!; [ done | by constructor | done ]. }
  set (detected := detectedSinhala data).
  assert (Hn : predictionStabilityCount (updateStability detected s)
               = runLength detected s) by by rewrite updateStability_eq.
  pose proof (updateStability_wf detected s Hwf) as Hwf1.
  rewrite Hn.
  destruct (bool_decide (3 ≤ runLength detected s)) eqn:Hrun; cbn.
  2:{ apply bool_decide_eq_false in Hrun.
      eexists _, _. split_and!; [ done | | done ].
      apply handled_candidate; [ done | tauto ]. }
  apply bool_decide_eq_true in Hrun.
  destruct (Qle_bool THRESHOLD (confidence data)) eqn:Hconf.
  2:{ eexists _, _. split_and!; [ done | | done ].
      apply handled_candidate; [ done | ].
      intros [_ Hle]. apply Qle_bool_iff in Hle. congruence. }
  apply Qle_bool_iff in Hconf.
  case_decide as Hexp.
  - destruct (handleCorrectSign_total now _ Hwf1) as (s2 & Hs2 & Hwf2 & _).
    rewrite Hs2. cbn. eexists _, _. split_and!; [ done | | by apply resetStability_wf ].
    by eapply handled_correct.
  - destruct (handleIncorrectSign_total detected _ Hwf1) as (s2 & Hs2 & Hwf2 & _).
    rewrite Hs2. cbn. eexists _, _. split_and!; [ done | | by apply resetStability_wf ].
    eapply handled_incorrect; try done; congruence.
Qed.

Lemma moveToNextLetter_wf startOver s : wf s → wf (moveToNextLetter startOver s).
Proof.
  intros [Hi Hst]. unfold moveToNextLetter.
  cbn. case_decide; [ destruct startOver | ]; split; cbn; try done; lia.
Qed.

Lemma step_total e s :
  wf s → ∃ s' out, step e s = Some (s', out) ∧ wf s'.
Proof.
  intros Hwf. destruct e as [now data | b | a b | i b | ]; cbn.
  - destruct (handlePrediction_handled now data s Hwf) as (s' & out & H & _ & Hwf').
    by exists s', out.
  - eexists _, _. split; [ done | ]. by apply moveToNextLetter_wf.
  - eexists _, _. split; [ done | ]. unfold skipClick.
    destruct a; [ by apply moveToNextLetter_wf | done ].
  - case_decide; eexists _, _; (split; [ done | ]); [ | done ].
    unfold letterItemClick. destruct b; [ | done ].
    destruct Hwf. by split.
  - eexists _, _. split; [ done | ]. unfold initPracticeMode, loadProgress.
    destruct Hwf. by destruct (practiceProgress s).
Qed.

Lemma run_total evs : ∀ s, wf s → ∃ s' outs, run evs s = Some (s', outs) ∧ wf s'.
Proof.
  induction evs as [ | e evs IH]; intros s Hwf; cbn.
  - by exists s, [].
  - destruct (step_total e s Hwf) as (s1 & out & -> & Hwf1). cbn.
    destruct (IH s1 Hwf1) as (s2 & outs & -> & Hwf2). cbn.
    by eexists _, _.
Qed.

(** ** Stability gate: what a confirmation needs (C2) *)

Lemma three_in_a_row_app labels more :
  three_in_a_row labels → three_in_a_row (labels ++ more).
Proof.
  intros (pre & l & post & ->). exists pre, l, (post ++ more).
  by rewrite <- !app_assoc.
Qed.

Lemma replicate_three (l : string) n pre :
  3 ≤ n → three_in_a_row (pre ++ replicate n l).
Proof.
  intros Hn. exists (pre ++ replicate (n - 3) l), l, [].
  replace n with ((n - 3) + 3) at 1 by lia.
  rewrite replicate_add. cbn. by rewrite <- app_assoc.
Qed.

Lemma runLength_tail detected s labels :
  run_tail s labels →
  ∃ pre, labels ++ [detected] = pre ++ replicate (runLength detected s) detected.
Proof.
  intros Htail. unfold runLength. case_decide as Hlast.
  - destruct Htail as [-> | (l & pre & Hl & ->)].
    + by exists labels.
    + assert (l = detected) as -> by congruence.
      exists pre. rewrite <- app_assoc. f_equal.
      by rewrite replicate_S_end.
  - by exists labels.
Qed.

Lemma step_run_tail e s s' out labels :
  wf s → run_tail s labels → step e s = Some (s', out) →
  run_tail s' (labels ++ option_list (acceptedLabel e))
  ∧ (is_Some out → three_in_a_row (labels ++ option_list (acceptedLabel e))).
Proof.
  intros Hwf Htail Hstep. destruct e as [now data | b | a b | i b | ]; cbn in *.
  - destruct (handlePrediction_handled now data s Hwf) as (s1 & out1 & Heq & Hh & _).
    rewrite Heq in Hstep. injection Hstep as -> ->.
    destruct (runLength_tail (detectedSinhala data) s labels Htail) as [pre Hpre].
    inversion Hh as [Hr | Hr Hno | s2 Hr Hrun Hc Hexp Hs2 | s2 Hr Hrun Hc Hexp Hs2];
      subst; rewrite Hr; cbn.
    + rewrite app_nil_r. split; [ done | by intros [? ?] ].
    + split; [ | by intros [? ?] ].
      right. exists (detectedSinhala data), pre.
      by rewrite updateStability_eq.
    + split; [ by left | ]. intros _. rewrite Hpre. by apply replicate_three.
    + split; [ by left | ]. intros _. rewrite Hpre. by apply replicate_three.
  - injection Hstep as <- <-. rewrite app_nil_r. split; [ | by intros [? ?] ].
    unfold moveToNextLetter. cbn.
    case_decide; [ destruct b | ]; try by left. exact Htail.
  - injection Hstep as <- <-. rewrite app_nil_r. split; [ | by intros [? ?] ].
    unfold skipClick, moveToNextLetter. cbn.
    destruct a; [ | done ].
    case_decide; [ destruct b | ]; try by left. exact Htail.
  - rewrite app_nil_r.
    case_decide; injection Hstep as <- <-; (split; [ | by intros [? ?] ]);
      [ | done ].
    unfold letterItemClick. by destruct b.
  - injection Hstep as <- <-. rewrite app_nil_r. split; [ | by intros [? ?] ].
    unfold initPracticeMode, loadProgress. by destruct (practiceProgress s).
Qed.

Lemma run_three_in_a_row evs : ∀ s s' outs labels,
  wf s → run_tail s labels → run evs s = Some (s', outs) → outs ≠ [] →
  three_in_a_row (labels ++ acceptedLabels evs).
Proof.
  induction evs as [ | e evs IH]; intros s s' outs labels Hwf Htail Hrun Hne; cbn in Hrun.
  - by injection Hrun as <- <-.
  - destruct (step_total e s Hwf) as (s1 & out & Hstep & Hwf1).
    rewrite Hstep in Hrun. cbn in Hrun.
    destruct (run evs s1) as [[s2 outs2] | ] eqn:Hrest; [ | done ].
    cbn in Hrun. injection Hrun as <- <-.
    destruct (step_run_tail e s s1 out labels Hwf Htail Hstep) as [Htail1 Hout].
    assert (Hacc : labels ++ acceptedLabels (e :: evs)
                   = (labels ++ option_list (acceptedLabel e)) ++ acceptedLabels evs).
    { unfold acceptedLabels. cbn. rewrite <- app_assoc.
      by destruct (acceptedLabel e). }
    rewrite Hacc. destruct out as [v | ].
    + apply three_in_a_row_app, Hout. by eexists.
    + by eapply IH.
Qed.

(** C2: an accepted observation is confirmed exactly when the updated
    run length is at least 3 and the confidence is at least the
    threshold (a confidence equal to the threshold passes); a
    confirmation leaves the stability state at [null] and [0]; otherwise
    nothing is handed on and only the stability state has moved; and no
    run of events confirms anything unless three accepted observations
    in a row carried the same label. *)
Theorem stability_gate_confirms_iff :
  (∀ now data s, wf s → ready data = true →
     let detected := detectedSinhala data in
     let n := if decide (lastPrediction s = Some detected)
              then S (predictionStabilityCount s) else 1 in
     ∃ s' out, handlePrediction now data s = Some (s', out)
       ∧ (is_Some out ↔ 3 ≤ n ∧ (THRESHOLD <= confidence data)%Q)
       ∧ ((confidence data == THRESHOLD)%Q → 3 ≤ n → is_Some out)
       ∧ (is_Some out →
          lastPrediction s' = None ∧ predictionStabilityCount s' = 0)
       ∧ (out = None →
          s' = set_lastPrediction (Some detected)
                 (set_predictionStabilityCount n s)))
  ∧ (∀ evs, ∃ s' outs, run evs initial = Some (s', outs)
       ∧ (outs ≠ [] → three_in_a_row (acceptedLabels evs))).
Proof.
  split.
  - intros now data s Hwf Hready detected n.
    destruct (handlePrediction_handled now data s Hwf) as (s' & out & Heq & Hh & _).
    exists s', out. split; [ exact Heq | ].
    assert (Hiff : is_Some out ↔ 3 ≤ n ∧ (THRESHOLD <= confidence data)%Q).
    { inversion Hh; subst; try congruence; split;
        try (by intros [? ?]); try done; by eexists. }
    split_and!; [ exact Hiff | | | ].
    + intros Heq' Hn. apply Hiff. split; [ done | ].
      rewrite Heq'. apply Qle_refl.
    + intros Hsome. by inversion Hh; subst; try (by destruct Hsome).
    + intros ->. inversion Hh; subst; try congruence.
      apply updateStability_eq.
  - intros evs. destruct (run_total evs initial wf_initial) as (s' & outs & Hrun & _).
    exists s', outs. split; [ exact Hrun | ]. intros Hne.
    apply (run_three_in_a_row evs initial s' outs [] wf_initial); [ by left | done | done ].
Qed.

(** ** Stability gate: how often a held label is confirmed (C1) *)

Lemma confident_step l e s :
  wf s → confident l e → phase l s < 3 →
  ∃ s' out, step e s = Some (s', out) ∧ wf s'
    ∧ (phase l s = 2 → is_Some out ∧ phase l s' = 0)
    ∧ (phase l s < 2 → out = None ∧ phase l s' = S (phase l s)).
Proof.
  intros Hwf Hconf Hp. destruct e as [now data | | | | ]; try done.
  destruct Hconf as (Hready & Hl & Hc). cbn.
  destruct (handlePrediction_handled now data s Hwf) as (s' & out & Heq & Hh & Hwf').
  exists s', out. split_and!; [ done | done | | ].
  - intros H2.
    assert (Hrun : 3 ≤ runLength (detectedSinhala data) s).
    { unfold runLength, phase in *. rewrite Hl. case_decide; lia. }
    inversion Hh; subst; try congruence; try tauto;
      (split; [ by eexists | unfold phase; cbn; by case_decide ]).
  - intros H2.
    assert (Hrun : runLength (detectedSinhala data) s = S (phase (detectedSinhala data) s)).
    { unfold runLength, phase in *. rewrite Hl. by case_decide. }
    inversion Hh; subst; try congruence; try lia.
    split; [ done | ]. rewrite updateStability_eq. unfold phase at 1. cbn.
    by rewrite decide_True.
Qed.

Lemma confident_run l evs : ∀ s,
  wf s → Forall (confident l) evs → phase l s < 3 →
  ∃ s' outs, run evs s = Some (s', outs)
             ∧ length outs = (phase l s + length evs) / 3.
Proof.
  induction evs as [ | e evs IH]; intros s Hwf Hall Hp; cbn [run].
  - exists s, []. split; [ done | ]. cbn [length]. rewrite Nat.add_0_r.
    symmetry. by apply Nat.div_small.
  - apply Forall_cons in Hall as [He Hall].
    remember ((phase l s + length (e :: evs)) / 3) as q eqn:Hq.
    destruct (confident_step l e s Hwf He Hp) as (s1 & out & -> & Hwf1 & Hemit & Hkeep).
    cbn.
    destruct (decide (phase l s = 2)) as [H2 | H2].
    + destruct (Hemit H2) as [[v ->] Hp1].
      destruct (IH s1 Hwf1 Hall) as (s2 & outs & -> & Hlen); [ lia | ].
      cbn. eexists _, _. split; [ done | ].
      cbn [length]. rewrite Hlen, Hp1, Hq, H2. cbn [length].
      replace (2 + S (length evs)) with (1 * 3 + length evs) by lia.
      rewrite Nat.div_add_l by lia. by rewrite Nat.add_0_l.
    + destruct (Hkeep ltac:(lia)) as [-> Hp1].
      destruct (IH s1 Hwf1 Hall) as (s2 & outs & -> & Hlen); [ lia | ].
      cbn. eexists _, _. split; [ done | ].
      rewrite Hlen, Hp1, Hq. cbn [length].
      f_equal. lia.
Qed.

(** C1, as the code has it: a run of [n] identical labels, all at or
    above the threshold, entered with a different previous label (or
    with the stability state cleared), is confirmed once per three
    consecutive frames, [n / 3] times in all; so exactly once when the
    run has 3, 4 or 5 frames. *)
Theorem held_label_confirmed_every_three l evs s :
  wf s → lastPrediction s ≠ Some l → Forall (confident l) evs →
  ∃ s' outs, run evs s = Some (s', outs)
    ∧ length outs = length evs / 3
    ∧ (length outs = 1 ↔ 3 ≤ length evs < 6).
Proof.
  intros Hwf Hlast Hall.
  assert (Hp : phase l s = 0) by (unfold phase; by case_decide).
  destruct (confident_run l evs s Hwf Hall) as (s' & outs & Hrun & Hlen); [ lia | ].
  rewrite Hp, Nat.add_0_l in Hlen.
  exists s', outs. split_and!; [ done | done | ].
  rewrite Hlen.
  pose proof (Nat.div_mod_eq (length evs) 3) as Hd.
  pose proof (Nat.mod_upper_bound (length evs) 3 ltac:(lia)) as Hm.
  lia.
Qed.

Lemma frame_a_confident : confident "à¶…" frame_a.
Proof. split_and!; [ reflexivity | by vm_compute | by vm_compute ]. Qed.

(** C1 fails on the code: a pose held for six frames is one run of six
    identical labels above the threshold, and it is confirmed twice,
    after the third and after the sixth frame. *)
Lemma held_six_frames_confirmed_twice :
  Forall (confident "à¶…") (replicate 6 frame_a)
  ∧ lastPrediction initial ≠ Some "à¶…"
  ∧ snd <$> run (replicate 6 frame_a) initial = Some [Correct; Correct]
  ∧ length [Correct; Correct] ≠ 1.
Proof.
  split_and!.
  - cbn. repeat constructor; by vm_compute.
  - done.
  - by vm_compute.
  - cbn. lia.
Qed.

Lemma held_label_confirmed_every_three_witness :
  ∃ s' outs, run (replicate 4 frame_a) initial = Some (s', outs)
    ∧ length outs = 1.
Proof.
  destruct (held_label_confirmed_every_three "à¶…" (replicate 4 frame_a) initial)
    as (s' & outs & Hrun & Hlen & _).
  - split; [ cbn; lia | ].
    vm_compute. repeat constructor; eexists; reflexivity.
  - cbn. discriminate.
  - cbn. repeat constructor; by vm_compute.
  - exists s', outs. split; [ exact Hrun | exact Hlen ].
Defined.

Lemma stability_gate_confirms_iff_witness :
  ∃ s' out,
    handlePrediction "2025-01-01T00:00:00.000Z"
      {| ready := true; predicted_action := "a_"; confidence := THRESHOLD |}
      heldTwice = Some (s', out)
    ∧ is_Some out
    ∧ lastPrediction s' = None ∧ predictionStabilityCount s' = 0.
Proof.
  destruct (proj1 stability_gate_confirms_iff "2025-01-01T00:00:00.000Z"
              {| ready := true; predicted_action := "a_"; confidence := THRESHOLD |}
              heldTwice)
    as (s' & out & Heq & Hiff & Hthr & Hreset & _).
  - split; [ cbn; lia | ].
    vm_compute. repeat constructor; eexists; reflexivity.
  - reflexivity.
  - assert (Hout : is_Some out).
    { apply Hthr; [ reflexivity | vm_compute; lia ]. }
    exists s', out. split; [ exact Heq | ]. split; [ exact Hout | ].
    exact (Hreset Hout).
Defined.

(** ** Navigation (C4) *)

(** C4 fails on the code in the clamp outcome: at the last letter, with
    one correct attempt and two frames of a run counted, declining to
    start over returns before the resets, so the round counters and the
    stability state stay as they were. *)
Lemma decline_at_last_letter_resets_nothing :
  roundView <$> (fst <$> run practisingLast initial)
    = Some (9, 1, 1, Some "à¶Œ", 2)
  ∧ roundView <$> (moveToNextLetter false <$> (fst <$> run practisingLast initial))
    = Some (9, 1, 1, Some "à¶Œ", 2)
  ∧ ¬ roundCleared
        (default initial
           (moveToNextLetter false <$> (fst <$> run practisingLast initial))).
Proof.
  split_and!; [ by vm_compute | by vm_compute | ].
  intros (Ha & _). vm_compute in Ha. discriminate.
Qed.

(** C4, as the code has it: advancing inside the catalog moves to the
    next letter and clears the round counters and the stability state;
    past the last letter, confirming wraps to the first letter with the
    same clearing, while declining leaves the whole state as it was,
    index on the last letter, nothing cleared. *)
Theorem moveToNextLetter_cases startOver s :
  currentLetterIndex s < length letters →
  let s' := moveToNextLetter startOver s in
  (S (currentLetterIndex s) < length letters →
     currentLetterIndex s' = S (currentLetterIndex s)
     ∧ roundCleared s' ∧ sameTotals s s')
  ∧ (S (currentLetterIndex s) = length letters → startOver = true →
     currentLetterIndex s' = 0 ∧ roundCleared s' ∧ sameTotals s s')
  ∧ (S (currentLetterIndex s) = length letters → startOver = false →
     s' = s).
Proof.
  intros Hi. unfold moveToNextLetter. cbn [currentLetterIndex set_currentLetterIndex].
  split_and!.
  - intros Hin. rewrite decide_False by lia. by split_and!.
  - intros Hlast ->. rewrite decide_True by lia. by split_and!.
  - intros Hlast ->. rewrite decide_True by lia.
    destruct s as [i a c t ss cs lp n cl st pp]. cbn in *.
    unfold set_currentLetterIndex. cbn. f_equal. lia.
Qed.

Lemma moveToNextLetter_cases_witness :
  currentLetterIndex (moveToNextLetter true (set_currentLetterIndex 9 heldTwice)) = 0
  ∧ roundCleared (moveToNextLetter true (set_currentLetterIndex 9 heldTwice))
  ∧ moveToNextLetter false (set_currentLetterIndex 9 heldTwice)
    = set_currentLetterIndex 9 heldTwice.
Proof.
  pose proof (moveToNextLetter_cases true (set_currentLetterIndex 9 heldTwice)
                ltac:(cbn; lia)) as (_ & Hwrap & _).
  pose proof (moveToNextLetter_cases false (set_currentLetterIndex 9 heldTwice)
                ltac:(cbn; lia)) as (_ & _ & Hclamp).
  destruct (Hwrap ltac:(reflexivity) ltac:(reflexivity)) as (H0 & Hclear & _).
  split; [ exact H0 | ]. split; [ exact Hclear | ].
  exact (Hclamp ltac:(reflexivity) ltac:(reflexivity)).
Defined.

(** ** Saturation of the round counter (C6) *)

Lemma step_correctAttempts e s s' out :
  wf s → correctAttempts s ≤ REQUIRED_ATTEMPTS → step e s = Some (s', out) →
  correctAttempts s' ≤ REQUIRED_ATTEMPTS.
Proof.
  intros Hwf Hle Hstep. destruct e as [now data | b | a b | i b | ]; cbn in Hstep.
  - destruct (handlePrediction_handled now data s Hwf) as (s1 & out1 & Heq & Hh & _).
    rewrite Heq in Hstep. injection Hstep as -> ->.
    pose proof (updateStability_wf (detectedSinhala data) s Hwf) as Hwf1.
    assert (Hsame : correctAttempts (updateStability (detectedSinhala data) s)
                    = correctAttempts s) by by rewrite updateStability_eq.
    inversion Hh as [Hr | Hr Hno | s2 Hr Hrun Hc Hexp Hs2 | s2 Hr Hrun Hc Hexp Hs2];
      subst; cbn; try lia.
    + destruct (handleCorrectSign_total now _ Hwf1) as (s3 & Hs3 & _ & _ & _ & _ & Hca).
      rewrite Hs2 in Hs3. injection Hs3 as <-. rewrite Hca, Hsame.
      clear Hca. unfold REQUIRED_ATTEMPTS in *. case_decide; lia.
    + destruct (handleIncorrectSign_total (detectedSinhala data) _ Hwf1)
        as (s3 & Hs3 & _ & _ & _ & _ & Hca).
      rewrite Hs2 in Hs3. injection Hs3 as <-. lia.
  - injection Hstep as <- <-. unfold moveToNextLetter. cbn.
    case_decide; [ destruct b | ]; cbn; lia.
  - injection Hstep as <- <-. unfold skipClick, moveToNextLetter. cbn.
    destruct a; [ | done ]. case_decide; [ destruct b | ]; cbn; lia.
  - case_decide; injection Hstep as <- <-; [ | done ].
    unfold letterItemClick. destruct b; cbn; lia.
  - injection Hstep as <- <-. unfold initPracticeMode, loadProgress.
    by destruct (practiceProgress s).
Qed.

Lemma run_correctAttempts evs : ∀ s s' outs,
  wf s → correctAttempts s ≤ REQUIRED_ATTEMPTS → run evs s = Some (s', outs) →
  correctAttempts s' ≤ REQUIRED_ATTEMPTS.
Proof.
  induction evs as [ | e evs IH]; intros s s' outs Hwf Hle Hrun; cbn in Hrun.
  - by injection Hrun as <- <-.
  - destruct (step_total e s Hwf) as (s1 & out & Hstep & Hwf1).
    rewrite Hstep in Hrun. cbn in Hrun.
    destruct (run evs s1) as [[s2 outs2] | ] eqn:Hrest; [ | done ].
    cbn in Hrun. injection Hrun as <- <-.
    eapply IH; [ exact Hwf1 | | exact Hrest ].
    exact (step_correctAttempts e s s1 out Hwf Hle Hstep).
Qed.

(** C6: whatever events arrive, [correctAttempts] never exceeds
    [REQUIRED_ATTEMPTS]; once it has reached it, [handleCorrectSign] is a
    no-op, and a further matching confirmed observation returns normally
    and leaves [correctAttempts] where it was. *)
Theorem correctAttempts_saturates :
  (∀ evs, ∃ s outs, run evs initial = Some (s, outs)
                    ∧ correctAttempts s ≤ REQUIRED_ATTEMPTS)
  ∧ (∀ now s, REQUIRED_ATTEMPTS ≤ correctAttempts s →
       handleCorrectSign now s = Some s)
  ∧ (∀ now data s, wf s → REQUIRED_ATTEMPTS ≤ correctAttempts s →
       ∃ s' out, handlePrediction now data s = Some (s', out)
                 ∧ correctAttempts s' = correctAttempts s).
Proof.
  split_and!.
  - intros evs. destruct (run_total evs initial wf_initial) as (s & outs & Hrun & _).
    exists s, outs. split; [ exact Hrun | ].
    eapply run_correctAttempts; [ exact wf_initial | | exact Hrun ].
    cbn. unfold REQUIRED_ATTEMPTS. lia.
  - intros now s Hsat. unfold handleCorrectSign. by rewrite decide_True.
  - intros now data s Hwf Hsat.
    destruct (handlePrediction_handled now data s Hwf) as (s' & out & Heq & Hh & _).
    exists s', out. split; [ exact Heq | ].
    pose proof (updateStability_wf (detectedSinhala data) s Hwf) as Hwf1.
    assert (Hsame : correctAttempts (updateStability (detectedSinhala data) s)
                    = correctAttempts s) by by rewrite updateStability_eq.
    inversion Hh as [Hr | Hr Hno | s2 Hr Hrun Hc Hexp Hs2 | s2 Hr Hrun Hc Hexp Hs2];
      subst; cbn; try done.
    + destruct (handleCorrectSign_total now _ Hwf1) as (s3 & Hs3 & _ & _ & _ & _ & Hca).
      rewrite Hs2 in Hs3. injection Hs3 as <-. rewrite Hca, Hsame.
      by rewrite decide_True.
    + destruct (handleIncorrectSign_total (detectedSinhala data) _ Hwf1)
        as (s3 & Hs3 & _ & _ & _ & _ & Hca).
      rewrite Hs2 in Hs3. injection Hs3 as <-. congruence.
Qed.

Lemma correctAttempts_saturates_witness :
  handleCorrectSign "2025-01-01T00:00:02.000Z" saturatedRound = Some saturatedRound
  ∧ ∃ s' out,
      handlePrediction "2025-01-01T00:00:02.000Z"
        {| ready := true; predicted_action := "a_"; confidence := 9 # 10 |}
        saturatedRound = Some (s', out)
      ∧ correctAttempts s' = 3.
Proof.
  destruct correctAttempts_saturates as (_ & Hnoop & Hpred).
  split.
  - apply Hnoop. cbn. unfold REQUIRED_ATTEMPTS. lia.
  - apply Hpred.
    + split; [ cbn; lia | ].
      vm_compute. repeat constructor; eexists; reflexivity.
    + cbn. unfold REQUIRED_ATTEMPTS. lia.
Defined.

(** ** Confirmed observations after mastery (C7) *)

Lemma handleIncorrectSign_effect detected s letter st :
  letters !! currentLetterIndex s = Some letter →
  letterStats s !! letter = Some st →
  ∃ s', handleIncorrectSign detected s = Some s'
    ∧ attempts s' = S (attempts s)
    ∧ totalAttempts s' = S (totalAttempts s)
    ∧ currentStreak s' = 0
    ∧ correctAttempts s' = correctAttempts s
    ∧ successfulSigns s' = successfulSigns s
    ∧ completedLetters s' = completedLetters s
    ∧ letterStats s' = <[letter := Stat.attempt st]> (letterStats s).
Proof.
  intros Hl Hs. unfold handleIncorrectSign. cbn. rewrite Hl. cbn. rewrite Hs. cbn.
  eexists. split; [ reflexivity | ]. by split_and!.
Qed.

Lemma handleCorrectSign_effect now s letter st :
  correctAttempts s < REQUIRED_ATTEMPTS →
  letters !! currentLetterIndex s = Some letter →
  letterStats s !! letter = Some st →
  ∃ s', handleCorrectSign now s = Some s'
    ∧ correctAttempts s' = S (correctAttempts s)
    ∧ attempts s' = S (attempts s)
    ∧ totalAttempts s' = S (totalAttempts s)
    ∧ successfulSigns s' = S (successfulSigns s)
    ∧ currentStreak s' = S (currentStreak s)
    ∧ currentLetterIndex s' = currentLetterIndex s
    ∧ (if decide (REQUIRED_ATTEMPTS ≤ S (correctAttempts s)
                  ∧ letter ∉ completedLetters s)
       then completedLetters s' = completedLetters s ++ [letter]
            ∧ letterStats s'
              = <[letter := Stat.complete now (Stat.success (Stat.attempt st))]>
                  (letterStats s)
       else completedLetters s' = completedLetters s
            ∧ letterStats s'
              = <[letter := Stat.success (Stat.attempt st)]> (letterStats s)).
Proof.
  intros Hlt Hl Hs. unfold handleCorrectSign.
  rewrite decide_False by lia. cbn. rewrite Hl. cbn. rewrite Hs. cbn.
  unfold completeCurrentLetter. cbn. rewrite Hl. cbn.
  rewrite lookup_insert_eq. cbn.
  destruct (decide (REQUIRED_ATTEMPTS ≤ S (correctAttempts s))) as [Hdone | Hdone].
  - destruct (decide (letter ∈ completedLetters s)) as [Hin | Hin]; cbn.
    + eexists. split; [ reflexivity | ].
      rewrite decide_False by tauto. by split_and!.
    + eexists. split; [ reflexivity | ].
      rewrite decide_True by tauto. cbn. by rewrite insert_insert_eq.
  - cbn. eexists. split; [ reflexivity | ].
    rewrite decide_False by tauto. by split_and!.
Qed.

(** C7 says that every confirmed observation is ignored once the
    current letter is mastered; the code does so for matching ones only.
    With the first letter mastered and still current, three frames of
    another letter are confirmed as an incorrect sign and are counted:
    attempts, total attempts and the letter's attempts go from 3 to 4 and
    the streak drops from 3 to 0. *)
Lemma wrong_sign_counted_after_mastery :
  countersView <$> (fst <$> run masterFirst initial)
    = Some (3, 3, 3, 3, 3, Some 3)
  ∧ snd <$> run (replicate 3 frame_i)
              (default initial (fst <$> run masterFirst initial))
    = Some [Incorrect "à¶‰"]
  ∧ countersView <$> (fst <$> run (masterFirst ++ replicate 3 frame_i) initial)
    = Some (4, 3, 4, 3, 0, Some 4).
Proof. split_and!; by vm_compute. Qed.

(** The general behaviour behind C7: once [correctAttempts] has reached
    [REQUIRED_ATTEMPTS], a confirmed observation that matches the
    current letter changes no counter and no statistic, but a confirmed
    observation of another label is still counted as an incorrect
    attempt: [attempts], [totalAttempts] and the letter's attempts go up
    by one and the streak is set to 0; [correctAttempts],
    [successfulSigns] and [completedLetters] stay in every case. *)
Theorem saturated_round_ignores_only_matches now data s :
  wf s → REQUIRED_ATTEMPTS ≤ correctAttempts s → ready data = true →
  ∃ s' out, handlePrediction now data s = Some (s', out)
    ∧ correctAttempts s' = correctAttempts s
    ∧ successfulSigns s' = successfulSigns s
    ∧ completedLetters s' = completedLetters s
    ∧ (out = Some Correct ∨ out = None →
         attempts s' = attempts s ∧ totalAttempts s' = totalAttempts s
         ∧ currentStreak s' = currentStreak s ∧ letterStats s' = letterStats s
         ∧ practiceProgress s' = practiceProgress s)
    ∧ (∀ detected, out = Some (Incorrect detected) →
         attempts s' = S (attempts s) ∧ totalAttempts s' = S (totalAttempts s)
         ∧ currentStreak s' = 0
         ∧ ∃ letter st, letters !! currentLetterIndex s = Some letter
             ∧ letterStats s !! letter = Some st
             ∧ letterStats s' = <[letter := Stat.attempt st]> (letterStats s))
    ∧ (3 ≤ runLength (detectedSinhala data) s →
       (THRESHOLD <= confidence data)%Q →
       out = if decide (letters !! currentLetterIndex s = Some (detectedSinhala data))
             then Some Correct else Some (Incorrect (detectedSinhala data))).
Proof.
  intros Hwf Hsat Hready.
  destruct (handlePrediction_handled now data s Hwf) as (s' & out & Heq & Hh & _).
  destruct (wf_current s Hwf) as (letter & st & Hl & Hs).
  exists s', out. split; [ exact Heq | ].
  pose proof (updateStability_eq (detectedSinhala data) s) as Hupd.
  inversion Hh as [Hr | Hr Hno | s2 Hr Hrun Hc Hexp Hs2 | s2 Hr Hrun Hc Hexp Hs2];
    subst; try congruence.
  - rewrite Hupd. cbn. split_and!; try done. tauto.
  - unfold handleCorrectSign in Hs2. rewrite Hupd in Hs2. cbn in Hs2.
    rewrite decide_True in Hs2 by done. injection Hs2 as <-. cbn.
    split_and!; try done. intros _ _. by rewrite decide_True.
  - destruct (handleIncorrectSign_effect (detectedSinhala data)
                (updateStability (detectedSinhala data) s) letter st)
      as (s3 & Hs3 & Ha & Ht & Hst & Hca & Hss & Hcl & Hls).
    { by rewrite Hupd. }
    { by rewrite Hupd. }
    rewrite Hs2 in Hs3. injection Hs3 as <-.
    rewrite Hupd in Ha, Ht, Hca, Hss, Hcl, Hls. cbn in *.
    split_and!; try done.
    + by intros [? | ?].
    + intros d _. split_and!; try done. by exists letter, st.
    + intros _ _. by rewrite decide_False.
Qed.

Lemma saturated_round_ignores_only_matches_witness :
  ∃ s',
    handlePrediction "2025-01-01T00:00:02.000Z"
      {| ready := true; predicted_action := "a_"; confidence := 9 # 10 |}
      saturatedRound = Some (s', Some Correct)
    ∧ attempts s' = 0 ∧ totalAttempts s' = 0 ∧ successfulSigns s' = 0.
Proof.
  destruct (saturated_round_ignores_only_matches "2025-01-01T00:00:02.000Z"
              {| ready := true; predicted_action := "a_"; confidence := 9 # 10 |}
              saturatedRound)
    as (s' & out & Heq & _ & Hss & _ & Hsame & _ & Hout).
  - split; [ cbn; lia | ].
    vm_compute. repeat constructor; eexists; reflexivity.
  - cbn. unfold REQUIRED_ATTEMPTS. lia.
  - reflexivity.
  - assert (Hc : out = Some Correct).
    { rewrite Hout; [ reflexivity | vm_compute; lia | by vm_compute ]. }
    subst out. exists s'. split; [ exact Heq | ].
    destruct (Hsame (or_introl eq_refl)) as (Ha & Ht & _).
    split; [ exact Ha | ]. split; [ exact Ht | exact Hss ].
Defined.

(** ** Mastering a letter twice (C5) *)

(** C5 fails on the code for the successes: mastering the first letter a
    second time, after a jump back to it, leaves [completedLetters] as it
    was but counts three more successful signs, in [successfulSigns] and
    in the letter's own statistics. *)
Lemma second_mastery_counts_successes_again :
  masteryView <$> (fst <$> run masterFirst initial)
    = Some (["à¶…"], 3, Some 3)
  ∧ snd <$> run (masterFirst ++ practiseAgain) initial
    = Some (replicate 6 Correct)
  ∧ masteryView <$> (fst <$> run (masterFirst ++ practiseAgain) initial)
    = Some (["à¶…"], 6, Some 6)
  ∧ correctAttempts <$> (fst <$> run (masterFirst ++ practiseAgain) initial)
    = Some REQUIRED_ATTEMPTS.
Proof. split_and!; by vm_compute. Qed.

(** C5, as the code has it: for a letter that is already in
    [completedLetters], [completeCurrentLetter] changes nothing but the
    saved copy of the progress, so the letter is not added twice and its
    completion time is kept; but every correct sign of the new round is
    counted again: each matching confirmed observation below the required
    number adds one to [successfulSigns] and to the letter's successes. *)
Theorem remastering_keeps_completed_only now s letter st :
  letters !! currentLetterIndex s = Some letter →
  letterStats s !! letter = Some st →
  letter ∈ completedLetters s →
  completeCurrentLetter now s = Some (saveProgress s)
  ∧ (correctAttempts s < REQUIRED_ATTEMPTS →
     ∃ s', handleCorrectSign now s = Some s'
       ∧ completedLetters s' = completedLetters s
       ∧ successfulSigns s' = S (successfulSigns s)
       ∧ letterStats s' = <[letter := Stat.success (Stat.attempt st)]> (letterStats s)
       ∧ Stat.lastCompleted (Stat.success (Stat.attempt st)) = Stat.lastCompleted st).
Proof.
  intros Hl Hs Hin. split.
  - unfold completeCurrentLetter. rewrite Hl. cbn. by rewrite decide_True.
  - intros Hlt.
    destruct (handleCorrectSign_effect now s letter st Hlt Hl Hs)
      as (s' & Heq & _ & _ & _ & Hss & _ & _ & Hcl).
    rewrite decide_False in Hcl by tauto. destruct Hcl as [Hcl Hls].
    exists s'. by split_and!.
Qed.

Lemma remastering_keeps_completed_only_witness :
  completeCurrentLetter "2025-01-01T00:00:04.000Z" masteredAgain
    = Some (saveProgress masteredAgain)
  ∧ ∃ s', handleCorrectSign "2025-01-01T00:00:04.000Z" masteredAgain = Some s'
      ∧ completedLetters s' = ["à¶…"]
      ∧ successfulSigns s' = 1.
Proof.
  destruct (remastering_keeps_completed_only "2025-01-01T00:00:04.000Z"
              masteredAgain "à¶…" Stat.zero) as [Hcomplete Hsign].
  - reflexivity.
  - by vm_compute.
  - cbn. apply list_elem_of_here.
  - split; [ exact Hcomplete | ].
    destruct Hsign as (s' & Heq & Hcl & Hss & _).
    + cbn. unfold REQUIRED_ATTEMPTS. lia.
    + exists s'. split; [ exact Heq | ]. split; [ exact Hcl | exact Hss ].
Defined.

(** ** Label mapping and the stability counter (C9) *)

(** C9: the stability counter compares mapped labels.  The handler sees
    a message only through its readiness, its confidence and its mapped
    label, so two raw labels with the same image are interchangeable;
    after an accepted, unconfirmed observation, a second one with the
    same image (whatever its raw label) finds the run one longer; and a
    raw label outside the table is its own image. *)
Theorem stability_compares_mapped_labels :
  (∀ now data1 data2 s,
     ready data1 = ready data2 → confidence data1 = confidence data2 →
     detectedSinhala data1 = detectedSinhala data2 →
     handlePrediction now data1 s = handlePrediction now data2 s)
  ∧ (∀ now1 now2 data1 data2 s s1,
     ready data1 = true → ready data2 = true →
     detectedSinhala data1 = detectedSinhala data2 →
     handlePrediction now1 data1 s = Some (s1, None) →
     runLength (detectedSinhala data2) s1 = S (predictionStabilityCount s1)
     ∧ (¬ (3 ≤ S (predictionStabilityCount s1)
           ∧ (THRESHOLD <= confidence data2)%Q) →
        handlePrediction now2 data2 s1
        = Some (set_predictionStabilityCount (S (predictionStabilityCount s1)) s1,
                None)))
  ∧ (∀ data, englishToSinhala !! predicted_action data = None →
     detectedSinhala data = predicted_action data)
  ∧ (∀ data l, englishToSinhala !! predicted_action data = Some l →
     detectedSinhala data = l).
Proof.
  split_and!.
  - intros now data1 data2 s Hr Hc Hd. unfold handlePrediction.
    by rewrite Hr, Hc, Hd.
  - intros now1 now2 data1 data2 s s1 Hr1 Hr2 Hd Hfirst.
    assert (Hs1 : s1 = updateStability (detectedSinhala data1) s).
    { unfold handlePrediction in Hfirst. rewrite Hr1 in Hfirst. cbn in Hfirst.
      destruct (_ && _) in Hfirst.
      - case_decide; by destruct (_ : option Session) in Hfirst.
      - by injection Hfirst as <-. }
    assert (Hlast : lastPrediction s1 = Some (detectedSinhala data2)).
    { rewrite Hs1, updateStability_eq, Hd. done. }
    assert (Hrun : runLength (detectedSinhala data2) s1
                   = S (predictionStabilityCount s1)).
    { unfold runLength. by rewrite decide_True. }
    split; [ exact Hrun | ]. intros Hno.
    assert (Hupd : updateStability (detectedSinhala data2) s1
                   = set_predictionStabilityCount (S (predictionStabilityCount s1)) s1).
    { unfold updateStability. by rewrite decide_True. }
    unfold handlePrediction. rewrite Hr2, Hupd. cbn.
    destruct (bool_decide _ && _) eqn:Hb; [ | done ].
    apply andb_prop in Hb as [H3 Hq]. apply bool_decide_eq_true in H3.
    apply Qle_bool_iff in Hq. tauto.
  - intros data Hnone. unfold detectedSinhala. by rewrite Hnone.
  - intros data l Hsome. unfold detectedSinhala. by rewrite Hsome.
Qed.

Lemma stability_compares_mapped_labels_witness :
  predicted_action rawEnglish ≠ predicted_action rawSinhala
  ∧ ∃ s1 s2,
      handlePrediction "2025-01-01T00:00:05.000Z" rawEnglish initial = Some (s1, None)
      ∧ handlePrediction "2025-01-01T00:00:06.000Z" rawSinhala s1 = Some (s2, None)
      ∧ predictionStabilityCount s1 = 1
      ∧ predictionStabilityCount s2 = 2.
Proof.
  split; [ discriminate | ].
  destruct stability_compares_mapped_labels as (_ & Hnext & Hraw & _).
  pose proof (Hraw rawSinhala ltac:(by vm_compute)) as Hself.
  destruct (Hnext "2025-01-01T00:00:05.000Z" "2025-01-01T00:00:06.000Z"
              rawEnglish rawSinhala initial
              (updateStability (detectedSinhala rawEnglish) initial))
    as [Hrun Hstep].
  - reflexivity.
  - reflexivity.
  - rewrite Hself. by vm_compute.
  - by vm_compute.
  - eexists _, _. split; [ by vm_compute | ].
    split; [ apply Hstep; vm_compute; lia | ].
    split; by vm_compute.
Defined.

(** ** Jumping through the letter grid (C10) *)

(** C10: a confirmed click on a grid item selects its letter and zeroes
    the round counters, and leaves the stability state alone; so when
    two frames of the newly selected letter were already counted, the
    very next such frame is confirmed as a correct sign for it. *)
Theorem jump_keeps_stability_state index s :
  (let s' := letterItemClick index true s in
   currentLetterIndex s' = index
   ∧ attempts s' = 0 ∧ correctAttempts s' = 0
   ∧ lastPrediction s' = lastPrediction s
   ∧ predictionStabilityCount s' = predictionStabilityCount s
   ∧ sameTotals s s')
  ∧ (∀ now data,
       wf s → index < length letters → ready data = true →
       letters !! index = Some (detectedSinhala data) →
       lastPrediction s = Some (detectedSinhala data) →
       2 ≤ predictionStabilityCount s →
       (THRESHOLD <= confidence data)%Q →
       ∃ s', handlePrediction now data (letterItemClick index true s)
             = Some (s', Some Correct)
         ∧ correctAttempts s' = 1 ∧ attempts s' = 1).
Proof.
  split; [ by split_and! | ].
  intros now data [Hi Hst] Hidx Hready Hletter Hlast Hcount Hconf.
  set (s0 := letterItemClick index true s).
  assert (Hwf : wf s0) by by split.
  destruct (handlePrediction_handled now data s0 Hwf) as (s' & out & Heq & Hh & _).
  assert (Hrun : 3 ≤ runLength (detectedSinhala data) s0).
  { unfold runLength. cbn. rewrite decide_True by done. lia. }
  destruct (Forall_lookup_1 _ _ _ _ Hst Hletter) as [st Hs].
  inversion Hh as [Hr | Hr Hno | s2 Hr _ _ Hexp Hs2 | s2 Hr _ _ Hexp Hs2];
    subst; try congruence; try tauto.
  destruct (handleCorrectSign_effect now
              (updateStability (detectedSinhala data) s0)
              (detectedSinhala data) st)
    as (s3 & Hs3 & Hca & Ha & _).
  - rewrite updateStability_eq. cbn. unfold REQUIRED_ATTEMPTS. lia.
  - by rewrite updateStability_eq.
  - by rewrite updateStability_eq.
  - rewrite Hs2 in Hs3. injection Hs3 as <-. exists (resetStability s2).
    split; [ exact Heq | ].
    rewrite updateStability_eq in Hca, Ha. by split.
Qed.

Lemma jump_keeps_stability_state_witness :
  ∃ s',
    handlePrediction "2025-01-01T00:00:07.000Z" rawEnglish
      (letterItemClick 0 true (set_currentLetterIndex 4 heldTwice))
    = Some (s', Some Correct)
    ∧ correctAttempts s' = 1 ∧ attempts s' = 1.
Proof.
  apply (proj2 (jump_keeps_stability_state 0 (set_currentLetterIndex 4 heldTwice))).
  - split; [ cbn; lia | ].
    vm_compute. repeat constructor; eexists; reflexivity.
  - cbn. lia.
  - reflexivity.
  - by vm_compute.
  - by vm_compute.
  - cbn. lia.
  - by vm_compute.
Defined.

(** ** Connecting again (C3) *)

(** C3 fails on the code: with the connection open (or still
    connecting), [initWebSocket] constructs a second socket and makes it
    current, and the first one stays as it was, so two connections are
    live. *)
Lemma reconnect_while_connected_adds_socket :
  (readyState connected = Some OPEN
   ∧ initWebSocket connected ≠ connected
   ∧ sockets (initWebSocket connected) = [OPEN; CONNECTING]
   ∧ ws connected = Some 0 ∧ ws (initWebSocket connected) = Some 1
   ∧ liveSockets (initWebSocket connected) = 2)
  ∧ (readyState connecting = Some CONNECTING
     ∧ initWebSocket connecting ≠ connecting
     ∧ sockets (initWebSocket connecting) = [CONNECTING; CONNECTING]
     ∧ liveSockets (initWebSocket connecting) = 2).
Proof. split; split_and!; by vm_compute. Qed.

(** C3, as the code has it: [initWebSocket] has no guard.  In every
    state it constructs one more socket, in state [CONNECTING], and makes
    it the current one; the sockets made before keep their state (none is
    closed or reused), and timers, pending timeouts and sent frames are
    not touched. *)
Theorem initWebSocket_always_connects p :
  let p' := initWebSocket p in
  sockets p' = sockets p ++ [CONNECTING]
  ∧ ws p' = Some (length (sockets p))
  ∧ readyState p' = Some CONNECTING
  ∧ liveSockets p' = S (liveSockets p)
  ∧ (∀ k r, sockets p !! k = Some r → sockets p' !! k = Some r)
  ∧ captureTimer p' = captureTimer p ∧ intervals p' = intervals p
  ∧ timeouts p' = timeouts p ∧ sent p' = sent p.
Proof.
  cbn. split_and!; try done.
  - unfold readyState. cbn. by rewrite lookup_app_r, Nat.sub_diag.
  - unfold initWebSocket, liveSockets. cbn.
    rewrite filter_app, length_app.
    rewrite filter_cons_True by done. rewrite filter_nil. cbn. lia.
  - intros k r Hk. unfold initWebSocket. cbn. apply lookup_app_l_Some, Hk.
Qed.

Lemma initWebSocket_always_connects_witness :
  sockets (initWebSocket connected) !! 0 = Some OPEN
  ∧ liveSockets (initWebSocket connected) = S (liveSockets connected).
Proof.
  destruct (initWebSocket_always_connects connected)
    as (_ & _ & _ & Hlive & Hkeep & _).
  split; [ | exact Hlive ].
  apply Hkeep. reflexivity.
Defined.

(** ** Losing the connection (C8) *)

Lemma stopCapturing_timer p :
  captureTimer (stopCapturing p) = None
  ∧ (oneTimer p → intervals (stopCapturing p) = [])
  ∧ sockets (stopCapturing p) = sockets p ∧ ws (stopCapturing p) = ws p
  ∧ timeouts (stopCapturing p) = timeouts p ∧ sent (stopCapturing p) = sent p.
Proof.
  unfold stopCapturing, oneTimer.
  destruct (captureTimer p) as [id | ] eqn:Ht; cbn; split_and!; try done.
  intros ->. cbn. by rewrite decide_False by (intros H; by apply H).
Qed.

Lemma deliver_sent e q :
  sent (deliver e q) = sent q
  ∨ ∃ k buffer, e = Encoded (Some buffer) ∧ ws q = Some k
                ∧ sockets q !! k = Some OPEN
                ∧ sent (deliver e q) = sent q ++ [(k, buffer)].
Proof.
  destruct e as [ | k | k | k | id | blob | j]; cbn.
  - by left.
  - left. unfold onopen, startCapturing.
    destruct (negb _ || negb _); [ done | ]. by destruct (captureTimer _).
  - by left.
  - left. unfold onclose. cbn.
    apply (stopCapturing_timer (set_sockets (<[k:=CLOSED]> (sockets q)) q)).
  - left. case_decide; [ | done ]. unfold capture.
    destruct (negb _); [ | done ]. cbn. apply stopCapturing_timer.
  - unfold frameEncoded. destruct blob as [buffer | ]; [ | by left ].
    destruct (ws q) as [k | ] eqn:Hws; [ | by left ].
    case_bool_decide as Hopen; [ | by left ].
    right. by exists k, buffer.
  - left. destruct (timeouts q !! j) as [[delay cb] | ]; [ | done ].
    by destruct cb.
Qed.

Lemma stopCapturing_oneTimer p : oneTimer p → oneTimer (stopCapturing p).
Proof.
  intros H. destruct (stopCapturing_timer p) as (Ht & Hi & _).
  unfold oneTimer. by rewrite Ht, Hi.
Qed.

Lemma startCapturing_oneTimer p : oneTimer p → oneTimer (startCapturing p).
Proof.
  intros H. unfold startCapturing.
  destruct (negb _ || negb _); [ exact H | ].
  destruct (captureTimer p) eqn:Ht; [ exact H | ].
  unfold oneTimer in *. rewrite Ht in H. cbn. by rewrite H.
Qed.

Lemma deliver_oneTimer e p : oneTimer p → oneTimer (deliver e p).
Proof.
  intros H. destruct e as [ | k | k | k | id | blob | j]; cbn.
  - exact H.
  - by apply (startCapturing_oneTimer (set_sockets (<[k:=OPEN]> (sockets p)) p)).
  - exact H.
  - unfold onclose.
    by apply (stopCapturing_oneTimer (set_sockets (<[k:=CLOSED]> (sockets p)) p)).
  - case_decide; [ | exact H ]. unfold capture.
    destruct (negb _); [ | exact H ]. by apply stopCapturing_oneTimer.
  - unfold frameEncoded. destruct blob; [ | exact H ].
    destruct (ws p); [ | exact H ]. by case_bool_decide.
  - destruct (timeouts p !! j) as [[delay cb] | ]; [ | exact H ].
    by destruct cb.
Qed.

(** Whatever the browser delivers after the page has loaded, the
    capture timer is the only live interval. *)
Lemma loaded_oneTimer es : oneTimer (deliverAll es pageLoaded).
Proof.
  unfold deliverAll. generalize pageLoaded, (eq_refl : oneTimer pageLoaded).
  induction es as [ | e es IH]; intros p Hp; [ exact Hp | ].
  cbn. apply IH. by apply deliver_oneTimer.
Qed.

(** C8: when a connection is lost, with a transport error or without,
    the capture timer is cleared, exactly one call of [initWebSocket] is
    queued with a delay of 2000 ms, no socket is constructed and no frame
    is sent meanwhile; and whatever the browser delivers, a frame is only
    ever sent to the current socket while it is [OPEN]: a timer tick that
    finds it otherwise stops the capture, and an encoded frame that
    finds it otherwise is dropped. *)
Theorem connection_loss_stops_capture_and_reconnects_once f k p :
  (let p' := deliverAll (failureEvents f k) p in
   captureTimer p' = None
   ∧ (oneTimer p → intervals p' = [])
   ∧ timeouts p' = timeouts p ++ [(2000, InitWebSocket)]
   ∧ sockets p' = <[k := CLOSED]> (sockets p)
   ∧ ws p' = ws p
   ∧ sent p' = sent p)
  ∧ (∀ e q, sent (deliver e q) = sent q
            ∨ ∃ j buffer, e = Encoded (Some buffer) ∧ ws q = Some j
                          ∧ sockets q !! j = Some OPEN
                          ∧ sent (deliver e q) = sent q ++ [(j, buffer)])
  ∧ (∀ q blob, readyState q ≠ Some OPEN →
       capture q = (stopCapturing q, false)
       ∧ frameEncoded blob q = q)
  ∧ call InitWebSocket = initWebSocket.
Proof.
  split_and!.
  - assert (Hclose : ∀ p0,
      let p' := onclose (set_sockets (<[k := CLOSED]> (sockets p0)) p0) in
      captureTimer p' = None
      ∧ (oneTimer p0 → intervals p' = [])
      ∧ timeouts p' = timeouts p0 ++ [(2000, InitWebSocket)]
      ∧ sockets p' = <[k := CLOSED]> (sockets p0)
      ∧ ws p' = ws p0 ∧ sent p' = sent p0).
    { intros p0. cbn.
      destruct (stopCapturing_timer (set_sockets (<[k:=CLOSED]> (sockets p0)) p0))
        as (Ht & Hi & Hs & Hw & Hto & Hse).
      rewrite Hto, Hs, Hw, Hse. by split_and!. }
    destruct f; cbn [failureEvents deliverAll foldl deliver onerror].
    + destruct (Hclose (set_sockets (<[k := CLOSED]> (sockets p)) p))
        as (Ht & Hi & Hto & Hs & Hw & Hse).
      split_and!; [ exact Ht | exact Hi | exact Hto | | exact Hw | exact Hse ].
      etrans; [ exact Hs | ]. cbn. apply list_insert_insert_eq.
    + apply Hclose.
  - apply deliver_sent.
  - intros q blob Hno. unfold capture, frameEncoded, wsOpen, readyState in *.
    rewrite bool_decide_eq_false_2 by done. split; [ done | ].
    destruct blob as [buffer | ]; [ | done ].
    destruct (ws q) as [j | ]; [ | done ]. cbn in Hno.
    by rewrite bool_decide_eq_false_2.
  - done.
Qed.

Lemma connection_loss_stops_capture_and_reconnects_once_witness :
  captureTimer connected = Some 1 ∧ intervals connected = [1]
  ∧ intervals (deliverAll (failureEvents TransportError 0) connected) = []
  ∧ timeouts (deliverAll (failureEvents TransportError 0) connected)
    = [(2000, InitWebSocket)]
  ∧ frameEncoded (Some "jpeg")
      (deliverAll (failureEvents TransportError 0) connected)
    = deliverAll (failureEvents TransportError 0) connected.
Proof.
  destruct (connection_loss_stops_capture_and_reconnects_once TransportError 0 connected)
    as ((_ & Hlive & Hto & _) & _ & Hdrop & _).
  split; [ reflexivity | ]. split; [ reflexivity | ].
  split; [ apply Hlive; reflexivity | ].
  split; [ exact Hto | ].
  apply Hdrop. by vm_compute.
Defined.

(** * Further properties *)

(** ** What the handlers compute, in closed form *)

Lemma letters_NoDup : NoDup letters.
Proof. apply (bool_decide_unpack _). by vm_compute. Qed.

Lemma handleIncorrectSign_eq detected s letter st :
  letters !! currentLetterIndex s = Some letter →
  letterStats s !! letter = Some st →
  handleIncorrectSign detected s
  = Some (saveProgress
            (set_letterStats (<[letter := Stat.attempt st]> (letterStats s))
               (set_currentStreak 0
                  (set_totalAttempts (S (totalAttempts s))
                     (set_attempts (S (attempts s)) s))))).
Proof.
  intros Hl Hs. unfold handleIncorrectSign. cbn. rewrite Hl. cbn. by rewrite Hs.
Qed.

Lemma handleCorrectSign_eq now s letter st :
  correctAttempts s < REQUIRED_ATTEMPTS →
  letters !! currentLetterIndex s = Some letter →
  letterStats s !! letter = Some st →
  handleCorrectSign now s
  = Some (saveProgress
      (if decide (REQUIRED_ATTEMPTS ≤ S (correctAttempts s)
                  ∧ letter ∉ completedLetters s)
       then set_letterStats
              (<[letter := Stat.complete now (Stat.success (Stat.attempt st))]>
                 (letterStats s))
              (set_completedLetters (completedLetters s ++ [letter]) (signCounted s))
       else set_letterStats
              (<[letter := Stat.success (Stat.attempt st)]> (letterStats s))
              (signCounted s))).
Proof.
  intros Hlt Hl Hs. unfold handleCorrectSign.
  rewrite decide_False by lia. cbn. rewrite Hl. cbn. rewrite Hs. cbn.
  unfold completeCurrentLetter. cbn. rewrite Hl. cbn.
  rewrite lookup_insert_eq. cbn.
  destruct (decide (REQUIRED_ATTEMPTS ≤ S (correctAttempts s))) as [Hdone | Hdone].
  - destruct (decide (letter ∈ completedLetters s)) as [Hin | Hin]; cbn.
    + by rewrite decide_False by tauto.
    + rewrite decide_True by tauto. cbn. by rewrite insert_insert_eq.
  - cbn. by rewrite decide_False by tauto.
Qed.

(** ** The books stay consistent *)

Lemma statTotal_insert (f : Stat.t → nat) (m : gmap string Stat.t) letter st st' :
  letter ∈ letters → m !! letter = Some st →
  statTotal f (<[letter := st']> m) + f st = statTotal f m + f st'.
Proof.
  intros Hin Hs. unfold statTotal.
  assert (Hgen : ∀ ls : list string, NoDup ls →
    sum_list ((λ x, from_option f 0 (<[letter := st']> m !! x)) <$> ls)
      + (if decide (letter ∈ ls) then f st else 0)
    = sum_list ((λ x, from_option f 0 (m !! x)) <$> ls)
      + (if decide (letter ∈ ls) then f st' else 0)).
  { induction ls as [ | x ls IH]; intros Hnd; [ done | ].
    apply NoDup_cons in Hnd as [Hx Hnd]. specialize (IH Hnd). cbn.
    destruct (decide (letter = x)) as [<- | Hne].
    - rewrite lookup_insert_eq, Hs. cbn.
      rewrite !(decide_False (P := letter ∈ ls)) in IH by done.
      rewrite !(decide_True (P := letter ∈ letter :: ls)) by apply list_elem_of_here.
      lia.
    - rewrite lookup_insert_ne by done.
      destruct (decide (letter ∈ ls)) as [Hl | Hl].
      + rewrite !(decide_True (P := letter ∈ x :: ls)) by by apply list_elem_of_further.
        lia.
      + rewrite !(decide_False (P := letter ∈ x :: ls))
          by (intros [? | ?]%elem_of_cons; done).
        lia. }
  specialize (Hgen letters letters_NoDup).
  by rewrite !decide_True in Hgen by done.
Qed.

Lemma completed_stat_update (completed : list string) (m : gmap string Stat.t) letter st st' :
  m !! letter = Some st →
  Stat.lastCompleted st' = Stat.lastCompleted st →
  (∀ l x, m !! l = Some x → (l ∈ completed ↔ is_Some (Stat.lastCompleted x))) →
  ∀ l x, <[letter := st']> m !! l = Some x →
         (l ∈ completed ↔ is_Some (Stat.lastCompleted x)).
Proof.
  intros Hs Hlast Hm l x Hx.
  destruct (decide (letter = l)) as [<- | Hne].
  - rewrite lookup_insert_eq in Hx. injection Hx as <-.
    rewrite Hlast. by apply Hm.
  - rewrite lookup_insert_ne in Hx by done. by apply Hm.
Qed.

Lemma completed_stat_complete (completed : list string) (m : gmap string Stat.t) letter st now :
  letter ∉ completed →
  (∀ l x, m !! l = Some x → (l ∈ completed ↔ is_Some (Stat.lastCompleted x))) →
  ∀ l x, <[letter := Stat.complete now st]> m !! l = Some x →
         (l ∈ completed ++ [letter] ↔ is_Some (Stat.lastCompleted x)).
Proof.
  intros Hnew Hm l x Hx. rewrite elem_of_app, list_elem_of_singleton.
  destruct (decide (letter = l)) as [<- | Hne].
  - rewrite lookup_insert_eq in Hx. injection Hx as <-. cbn.
    split; [ by eexists | by right ].
  - rewrite lookup_insert_ne in Hx by done.
    rewrite <- (Hm l x Hx). split; [ intros [? | ?]; [ done | congruence ] | by left ].
Qed.

Lemma consistent_sameBooks s s' : sameBooks s s' → consistent s → consistent s'.
Proof.
  intros (Ha & Hc & Ht & Hss & Hcs & Hcl & Hls & Hpp)
         (Hsaved & Hord & Hcomp & Hsum1 & Hsum2).
  unfold consistent, progressSaved, countersOrdered, completedConsistent in *.
  rewrite Ha, Hc, Ht, Hss, Hcs, Hcl, Hls, Hpp.
  exact (conj Hsaved (conj Hord (conj Hcomp (conj Hsum1 Hsum2)))).
Qed.

Lemma consistent_roundReset s s' :
  attempts s' = 0 → correctAttempts s' = 0 → sameTotals s s' →
  consistent s → consistent s'.
Proof.
  intros Ha Hc (Ht & Hss & Hcs & Hcl & Hls & Hpp)
         (Hsaved & Hord & Hcomp & Hsum1 & Hsum2).
  unfold consistent, progressSaved, countersOrdered, completedConsistent in *.
  rewrite Ha, Hc, Ht, Hss, Hcs, Hcl, Hls, Hpp.
  refine (conj Hsaved (conj _ (conj Hcomp (conj Hsum1 Hsum2)))). lia.
Qed.

Lemma handleIncorrectSign_consistent detected s s' :
  wf s → consistent s → handleIncorrectSign detected s = Some s' → consistent s'.
Proof.
  intros Hwf (Hsaved & Hord & (Hnd & Hsub & Hlast) & Hsum1 & Hsum2) Heq.
  destruct (wf_current s Hwf) as (letter & st & Hl & Hs).
  rewrite (handleIncorrectSign_eq detected s letter st Hl Hs) in Heq.
  injection Heq as <-.
  assert (Hin : letter ∈ letters) by by eapply list_elem_of_lookup_2.
  pose proof (statTotal_insert Stat.attempts (letterStats s) letter st
                (Stat.attempt st) Hin Hs) as Ha.
  pose proof (statTotal_insert Stat.successes (letterStats s) letter st
                (Stat.attempt st) Hin Hs) as Hb.
  unfold countersOrdered in Hord. cbn in Ha, Hb.
  split_and!; cbn.
  - done.
  - unfold countersOrdered. cbn. lia.
  - split_and!; [ done | done | ].
    by apply (completed_stat_update _ _ letter st).
  - lia.
  - lia.
Qed.

Lemma handleCorrectSign_consistent now s s' :
  wf s → consistent s → handleCorrectSign now s = Some s' → consistent s'.
Proof.
  intros Hwf Hcons Heq.
  destruct (decide (REQUIRED_ATTEMPTS ≤ correctAttempts s)) as [Hsat | Hsat].
  { unfold handleCorrectSign in Heq. rewrite decide_True in Heq by done.
    by injection Heq as <-. }
  destruct Hcons as (Hsaved & Hord & (Hnd & Hsub & Hlast) & Hsum1 & Hsum2).
  destruct (wf_current s Hwf) as (letter & st & Hl & Hs).
  rewrite (handleCorrectSign_eq now s letter st ltac:(lia) Hl Hs) in Heq.
  injection Heq as <-.
  assert (Hin : letter ∈ letters) by by eapply list_elem_of_lookup_2.
  unfold countersOrdered in Hord.
  case_decide as Hnew.
  - destruct Hnew as [_ Hnew].
    pose proof (statTotal_insert Stat.attempts (letterStats s) letter st
      (Stat.complete now (Stat.success (Stat.attempt st))) Hin Hs) as Ha.
    pose proof (statTotal_insert Stat.successes (letterStats s) letter st
      (Stat.complete now (Stat.success (Stat.attempt st))) Hin Hs) as Hb.
    cbn in Ha, Hb.
    split_and!; cbn.
    + done.
    + unfold countersOrdered. cbn. lia.
    + split_and!.
      * apply NoDup_app. split_and!; [ done | | apply NoDup_singleton ].
        intros x Hx ->%list_elem_of_singleton. done.
      * intros l [? | ->%list_elem_of_singleton]%elem_of_app; [ by apply Hsub | done ].
      * by apply completed_stat_complete.
    + lia.
    + lia.
  - pose proof (statTotal_insert Stat.attempts (letterStats s) letter st
      (Stat.success (Stat.attempt st)) Hin Hs) as Ha.
    pose proof (statTotal_insert Stat.successes (letterStats s) letter st
      (Stat.success (Stat.attempt st)) Hin Hs) as Hb.
    cbn in Ha, Hb.
    split_and!; cbn.
    + done.
    + unfold countersOrdered. cbn. lia.
    + split_and!; [ done | done | ].
      by apply (completed_stat_update _ _ letter st).
    + lia.
    + lia.
Qed.

Lemma updateStability_sameBooks detected s : sameBooks s (updateStability detected s).
Proof. rewrite updateStability_eq. by repeat split. Qed.

Lemma moveToNextLetter_consistent startOver s :
  consistent s → consistent (moveToNextLetter startOver s).
Proof.
  intros Hcons. unfold moveToNextLetter. cbn.
  case_decide; [ destruct startOver | ].
  - by apply (consistent_roundReset s).
  - by apply (consistent_sameBooks s).
  - by apply (consistent_roundReset s).
Qed.

Lemma loadProgress_consistent s : consistent s → consistent (loadProgress s).
Proof.
  intros Hcons. apply (consistent_sameBooks s); [ | done ].
  destruct Hcons as (Hsaved & _). unfold loadProgress, progressSaved in *.
  destruct (practiceProgress s) as [p | ] eqn:Hp; [ | by repeat split ].
  destruct Hsaved as (Ht & Hss & Hcs). by repeat split.
Qed.

Lemma step_consistent e s s' out :
  wf s → consistent s → step e s = Some (s', out) → consistent s'.
Proof.
  intros Hwf Hcons Hstep. destruct e as [now data | b | a b | i b | ]; cbn in Hstep.
  - destruct (handlePrediction_handled now data s Hwf) as (s1 & out1 & Heq & Hh & _).
    rewrite Heq in Hstep. injection Hstep as -> ->.
    pose proof (updateStability_wf (detectedSinhala data) s Hwf) as Hwf1.
    pose proof (consistent_sameBooks _ _
                  (updateStability_sameBooks (detectedSinhala data) s) Hcons) as Hc1.
    inversion Hh as [Hr | Hr Hno | s2 Hr Hrun Hc Hexp Hs2 | s2 Hr Hrun Hc Hexp Hs2];
      subst; try done.
    + apply (consistent_sameBooks s2); [ by repeat split | ].
      by eapply handleCorrectSign_consistent.
    + apply (consistent_sameBooks s2); [ by repeat split | ].
      by eapply handleIncorrectSign_consistent.
  - injection Hstep as <- <-. by apply moveToNextLetter_consistent.
  - injection Hstep as <- <-. unfold skipClick.
    destruct a; [ by apply moveToNextLetter_consistent | done ].
  - case_decide; injection Hstep as <- <-; [ | done ].
    unfold letterItemClick. destruct b; [ | done ].
    by apply (consistent_roundReset s).
  - injection Hstep as <- <-. by apply loadProgress_consistent.
Qed.

Lemma initial_consistent : consistent initial.
Proof.
  split_and!; try done.
  split_and!.
  - apply NoDup_nil_2.
  - by intros l ?%elem_of_nil.
  - intros l st Hst. split; [ by intros ?%elem_of_nil | ].
    intros Hsome. exfalso.
    apply (elem_of_list_to_map_2 ((λ letter, (letter, Stat.zero)) <$> letters)) in Hst.
    apply list_elem_of_fmap in Hst.
    destruct Hst as (l' & [= _ ->] & _). by destruct Hsome.
Qed.

Lemma run_consistent evs : ∀ s s' outs,
  wf s → consistent s → run evs s = Some (s', outs) → consistent s'.
Proof.
  induction evs as [ | e evs IH]; intros s s' outs Hwf Hcons Hrun; cbn in Hrun.
  - by injection Hrun as <- <-.
  - destruct (step_total e s Hwf) as (s1 & out & Hstep & Hwf1).
    rewrite Hstep in Hrun. cbn in Hrun.
    destruct (run evs s1) as [[s2 outs2] | ] eqn:Hrest; [ | done ].
    cbn in Hrun. injection Hrun as <- <-.
    eapply IH; [ exact Hwf1 | | exact Hrest ].
    exact (step_consistent e s s1 out Hwf Hcons Hstep).
Qed.

(** ** Invariants of every session *)

(** X1: saving and reloading the progress gives back the state that was
    saved; and in every state the practice session can reach, the
    [loadProgress] done by [initPracticeMode] on each (re)connection
    changes nothing, because the saved copy is always up to date. *)
Theorem reload_changes_nothing :
  (∀ s, loadProgress (saveProgress s) = saveProgress s)
  ∧ (∀ evs, ∃ s outs, run evs initial = Some (s, outs)
                      ∧ initPracticeMode s = s).
Proof.
  split.
  - by intros [i a c t ss cs lp n cl st pp].
  - intros evs. destruct (run_total evs initial wf_initial) as (s & outs & Hrun & _).
    exists s, outs. split; [ exact Hrun | ].
    destruct (run_consistent evs initial s outs wf_initial initial_consistent Hrun)
      as (Hsaved & _).
    unfold initPracticeMode, loadProgress, progressSaved in *.
    destruct s as [i a c t ss cs lp n cl st [p | ]]; [ | done ].
    cbn in *. destruct Hsaved as (-> & -> & ->). done.
Qed.

(** X2: in every state the session can reach, the counters are ordered:
    correct attempts of the round are at most its attempts, which are at
    most the total attempts; the streak is at most the successful signs,
    which are at most the total attempts.  So the rates shown by
    [updateStats] and the completion modal never exceed 100%. *)
Theorem counters_stay_ordered evs :
  ∃ s outs, run evs initial = Some (s, outs)
    ∧ correctAttempts s ≤ attempts s ≤ totalAttempts s
    ∧ correctAttempts s ≤ successfulSigns s
    ∧ currentStreak s ≤ successfulSigns s ≤ totalAttempts s.
Proof.
  destruct (run_total evs initial wf_initial) as (s & outs & Hrun & _).
  exists s, outs. split; [ exact Hrun | ].
  destruct (run_consistent evs initial s outs wf_initial initial_consistent Hrun)
    as (_ & Hord & _).
  unfold countersOrdered in Hord. lia.
Qed.

(** X3: in every state the session can reach, [completedLetters] holds
    catalog letters only, none of them twice, so the completed count
    shown by [updateOverallProgress] never exceeds the total; and a
    letter is listed exactly when its statistics carry a completion
    time. *)
Theorem completed_letters_well_formed evs :
  ∃ s outs, run evs initial = Some (s, outs)
    ∧ NoDup (completedLetters s)
    ∧ (∀ letter, letter ∈ completedLetters s → letter ∈ letters)
    ∧ length (completedLetters s) ≤ length letters
    ∧ (∀ letter st, letterStats s !! letter = Some st →
         (letter ∈ completedLetters s ↔ is_Some (Stat.lastCompleted st))).
Proof.
  destruct (run_total evs initial wf_initial) as (s & outs & Hrun & _).
  exists s, outs. split; [ exact Hrun | ].
  destruct (run_consistent evs initial s outs wf_initial initial_consistent Hrun)
    as (_ & _ & (Hnd & Hsub & Hlast) & _).
  split_and!; try done.
  apply submseteq_length, NoDup_submseteq; done.
Qed.

(** X4: in every state the session can reach, the per-letter statistics
    add up to the totals: the attempts recorded for the letters sum to
    [totalAttempts], and their successes to [successfulSigns]. *)
Theorem letter_stats_add_up evs :
  ∃ s outs, run evs initial = Some (s, outs)
    ∧ statTotal Stat.attempts (letterStats s) = totalAttempts s
    ∧ statTotal Stat.successes (letterStats s) = successfulSigns s.
Proof.
  destruct (run_total evs initial wf_initial) as (s & outs & Hrun & _).
  exists s, outs. split; [ exact Hrun | ].
  by destruct (run_consistent evs initial s outs wf_initial initial_consistent Hrun)
    as (_ & _ & _ & Hsum).
Qed.

(** X5: the attempts indicator always has [REQUIRED_ATTEMPTS] dots, the
    completed ones first; in every state the session can reach, exactly
    [correctAttempts] of them are completed. *)
Theorem attempts_indicator_shows_progress :
  (∀ s, updateAttemptsIndicator s
        = replicate (correctAttempts s `min` REQUIRED_ATTEMPTS) true
          ++ replicate (REQUIRED_ATTEMPTS - correctAttempts s) false)
  ∧ (∀ evs, ∃ s outs, run evs initial = Some (s, outs)
       ∧ updateAttemptsIndicator s
         = replicate (correctAttempts s) true
           ++ replicate (REQUIRED_ATTEMPTS - correctAttempts s) false).
Proof.
  assert (Hdots : ∀ s, updateAttemptsIndicator s
        = replicate (correctAttempts s `min` REQUIRED_ATTEMPTS) true
          ++ replicate (REQUIRED_ATTEMPTS - correctAttempts s) false).
  { intros s. unfold updateAttemptsIndicator, REQUIRED_ATTEMPTS.
    destruct (correctAttempts s) as [ | [ | [ | c]]]; cbn;
      repeat case_bool_decide; try lia; by rewrite ?Nat.min_0_r. }
  split; [ exact Hdots | ].
  intros evs. destruct (run_total evs initial wf_initial) as (s & outs & Hrun & _).
  exists s, outs. split; [ exact Hrun | ].
  pose proof (run_correctAttempts evs initial s outs wf_initial
                ltac:(cbn; unfold REQUIRED_ATTEMPTS; lia) Hrun) as Hle.
  rewrite Hdots. by rewrite Nat.min_l.
Qed.

(** ** Runs of frames *)

Lemma run_app evs1 : ∀ evs2 s,
  run (evs1 ++ evs2) s
  = '(s1, outs1) ← run evs1 s; '(s2, outs2) ← run evs2 s1; Some (s2, outs1 ++ outs2).
Proof.
  induction evs1 as [ | e evs1 IH]; intros evs2 s; cbn.
  - by destruct (run evs2 s) as [[s2 outs2] | ].
  - destruct (step e s) as [[s1 out] | ]; [ cbn | done ].
    rewrite IH. destruct (run evs1 s1) as [[s2 outs1] | ]; [ cbn | done ].
    destruct (run evs2 s2) as [[s3 outs2] | ]; [ cbn | done ].
    by rewrite app_assoc.
Qed.

Lemma handlePrediction_candidate now data s :
  ready data = true →
  ¬ (3 ≤ runLength (detectedSinhala data) s ∧ (THRESHOLD <= confidence data)%Q) →
  handlePrediction now data s = Some (updateStability (detectedSinhala data) s, None).
Proof.
  intros Hr Hno. unfold handlePrediction. rewrite Hr. cbn.
  destruct (bool_decide _ && _) eqn:Hb; [ | done ].
  apply andb_prop in Hb as [H3 Hq]. apply bool_decide_eq_true in H3.
  apply Qle_bool_iff in Hq. rewrite updateStability_eq in H3. by destruct Hno.
Qed.

Lemma handlePrediction_correct now data s :
  ready data = true →
  3 ≤ runLength (detectedSinhala data) s →
  (THRESHOLD <= confidence data)%Q →
  letters !! currentLetterIndex s = Some (detectedSinhala data) →
  handlePrediction now data s
  = s2 ← handleCorrectSign now (updateStability (detectedSinhala data) s);
    Some (resetStability s2, Some Correct).
Proof.
  intros Hr H3 Hq Hexp. unfold handlePrediction. rewrite Hr. cbn.
  assert (Hn : predictionStabilityCount (updateStability (detectedSinhala data) s)
               = runLength (detectedSinhala data) s) by by rewrite updateStability_eq.
  rewrite Hn, bool_decide_eq_true_2 by done.
  apply Qle_bool_iff in Hq. rewrite Hq. cbn.
  by rewrite decide_True.
Qed.

(** Three frames of the current letter, from a fresh run, in a round
    that is not yet complete: one correct sign. *)
Lemma three_frames_one_sign letter e1 e2 e3 s :
  wf s → letters !! currentLetterIndex s = Some letter →
  lastPrediction s ≠ Some letter → correctAttempts s < REQUIRED_ATTEMPTS →
  confident letter e1 → confident letter e2 → confident letter e3 →
  ∃ s', run [e1; e2; e3] s = Some (s', [Correct])
    ∧ wf s'
    ∧ currentLetterIndex s' = currentLetterIndex s
    ∧ lastPrediction s' = None
    ∧ correctAttempts s' = S (correctAttempts s)
    ∧ successfulSigns s' = S (successfulSigns s)
    ∧ currentStreak s' = S (currentStreak s)
    ∧ (REQUIRED_ATTEMPTS ≤ S (correctAttempts s) → letter ∈ completedLetters s')
    ∧ (∀ l, l ∈ completedLetters s → l ∈ completedLetters s').
Proof.
  intros Hwf Hl Hlast Hlt He1 He2 He3.
  destruct e1 as [now1 d1 | | | | ]; try done. destruct He1 as (Hr1 & Hd1 & Hc1).
  destruct e2 as [now2 d2 | | | | ]; try done. destruct He2 as (Hr2 & Hd2 & Hc2).
  destruct e3 as [now3 d3 | | | | ]; try done. destruct He3 as (Hr3 & Hd3 & Hc3).
  destruct (wf_current s Hwf) as (letter' & st & Hl' & Hs).
  assert (letter' = letter) as -> by congruence. clear Hl'.
  set (s1 := updateStability letter s).
  set (s2 := updateStability letter s1).
  set (s3 := updateStability letter s2).
  assert (H1 : runLength letter s = 1).
  { unfold runLength. by rewrite decide_False. }
  assert (H2 : runLength letter s1 = 2).
  { unfold s1. rewrite updateStability_eq, H1. unfold runLength. cbn.
    by rewrite decide_True. }
  assert (H3 : runLength letter s2 = 3).
  { unfold s2. rewrite updateStability_eq, H2. unfold runLength. cbn.
    by rewrite decide_True. }
  assert (Hb1 : sameBooks s s1) by apply updateStability_sameBooks.
  assert (Hb2 : sameBooks s1 s2) by apply updateStability_sameBooks.
  assert (Hb3 : sameBooks s2 s3) by apply updateStability_sameBooks.
  assert (Hi3 : currentLetterIndex s3 = currentLetterIndex s).
  { unfold s3, s2, s1. by rewrite !updateStability_eq. }
  assert (Hi2 : currentLetterIndex s2 = currentLetterIndex s).
  { unfold s2, s1. by rewrite !updateStability_eq. }
  destruct Hb1 as (Ha1 & Hca1 & Ht1 & Hss1 & Hcs1 & Hcl1 & Hls1 & _).
  destruct Hb2 as (Ha2 & Hca2 & Ht2 & Hss2 & Hcs2 & Hcl2 & Hls2 & _).
  destruct Hb3 as (Ha3 & Hca3 & Ht3 & Hss3 & Hcs3 & Hcl3 & Hls3 & _).
  assert (Hwf3 : wf s3) by by do 3 apply updateStability_wf.
  cbn [run step].
  rewrite (handlePrediction_candidate now1 d1 s Hr1) by (rewrite Hd1, H1; lia).
  rewrite Hd1. fold s1. cbn [mbind option_bind].
  rewrite (handlePrediction_candidate now2 d2 s1 Hr2) by (rewrite Hd2, H2; lia).
  rewrite Hd2. fold s2. cbn [mbind option_bind].
  rewrite (handlePrediction_correct now3 d3 s2 Hr3)
    by (rewrite ?Hd3, ?H3, ?Hi2; done || lia).
  rewrite Hd3. fold s3.
  rewrite (handleCorrectSign_eq now3 s3 letter st)
    by (rewrite ?Hca3, ?Hca2, ?Hca1, ?Hi3, ?Hls3, ?Hls2, ?Hls1; done).
  cbn [mbind option_bind option_list app].
  eexists. split; [ reflexivity | ].
  rewrite Hca3, Hca2, Hca1, Hcl3, Hcl2, Hcl1, Hls3, Hls2, Hls1.
  destruct Hwf as [Hi Hst].
  case_decide as Hnew; unfold wf; cbn;
    rewrite ?Hi3, ?Hca3, ?Hca2, ?Hca1, ?Hss3, ?Hss2, ?Hss1, ?Hcs3, ?Hcs2, ?Hcs1,
      ?Hcl3, ?Hcl2, ?Hcl1.
  - split_and!; try done.
    + by apply stats_insert_wf.
    + intros _. apply elem_of_app. right. apply list_elem_of_here.
    + intros l Hin. apply elem_of_app. by left.
  - split_and!; try done.
    + by apply stats_insert_wf.
    + intros Hreq. destruct (decide (letter ∈ completedLetters s)); [ done | tauto ].
Qed.

(** X6: practising the current letter.  From a state whose last label
    is another one, [3 * k] frames of the current letter at or above the
    threshold, in a round with room for [k] more correct attempts, give
    exactly [k] verdicts, all correct; [correctAttempts],
    [successfulSigns] and the streak go up by [k]; and when the round
    reaches the required number, the letter is in [completedLetters].
    Letters completed before stay completed. *)
Theorem practising_current_letter k : ∀ letter evs s,
  wf s → letters !! currentLetterIndex s = Some letter →
  lastPrediction s ≠ Some letter →
  correctAttempts s + k ≤ REQUIRED_ATTEMPTS →
  Forall (confident letter) evs → length evs = 3 * k →
  ∃ s', run evs s = Some (s', replicate k Correct)
    ∧ wf s'
    ∧ currentLetterIndex s' = currentLetterIndex s
    ∧ lastPrediction s' ≠ Some letter
    ∧ correctAttempts s' = correctAttempts s + k
    ∧ successfulSigns s' = successfulSigns s + k
    ∧ currentStreak s' = currentStreak s + k
    ∧ (1 ≤ k → correctAttempts s + k = REQUIRED_ATTEMPTS →
       letter ∈ completedLetters s')
    ∧ (∀ l, l ∈ completedLetters s → l ∈ completedLetters s').
Proof.
  induction k as [ | k IH]; intros letter evs s Hwf Hl Hlast Hroom Hall Hlen.
  - destruct evs; [ | done ]. exists s. cbn.
    rewrite !Nat.add_0_r. split_and!; try done. lia.
  - destruct evs as [ | e1 [ | e2 [ | e3 evs]]]; try (cbn in Hlen; lia).
    apply Forall_cons in Hall as [He1 Hall].
    apply Forall_cons in Hall as [He2 Hall].
    apply Forall_cons in Hall as [He3 Hall].
    destruct (three_frames_one_sign letter e1 e2 e3 s Hwf Hl Hlast ltac:(lia)
                He1 He2 He3)
      as (s1 & Hrun1 & Hwf1 & Hi1 & Hlast1 & Hca1 & Hss1 & Hcs1 & Hdone1 & Hkeep1).
    destruct (IH letter evs s1 Hwf1) as
      (s2 & Hrun2 & Hwf2 & Hi2 & Hlast2 & Hca2 & Hss2 & Hcs2 & Hdone2 & Hkeep2);
      [ congruence | congruence | lia | done | cbn in Hlen; lia | ].
    exists s2. change (e1 :: e2 :: e3 :: evs) with ([e1; e2; e3] ++ evs).
    rewrite run_app, Hrun1. cbn [mbind option_bind]. rewrite Hrun2.
    cbn [mbind option_bind app replicate].
    split_and!; try done; try lia; try congruence.
    + intros _ Hfull. destruct k as [ | k].
      * apply Hkeep2, Hdone1. lia.
      * apply Hdone2; lia.
    + intros l Hin. by apply Hkeep2, Hkeep1.
Qed.

Lemma practising_current_letter_witness :
  ∃ s', run (replicate 9 frame_a) initial = Some (s', replicate 3 Correct)
    ∧ correctAttempts s' = 3
    ∧ "à¶…" ∈ completedLetters s'.
Proof.
  destruct (practising_current_letter 3 "à¶…" (replicate 9 frame_a) initial)
    as (s' & Hrun & _ & _ & _ & Hca & _ & _ & Hdone & _).
  - split; [ cbn; lia | ].
    vm_compute. repeat constructor; eexists; reflexivity.
  - reflexivity.
  - discriminate.
  - cbn. unfold REQUIRED_ATTEMPTS. lia.
  - cbn. repeat constructor; by vm_compute.
  - reflexivity.
  - exists s'. split; [ exact Hrun | ]. split; [ exact Hca | ].
    apply Hdone; [ lia | reflexivity ].
Defined.

Lemma faint_run l evs : ∀ s,
  wf s → Forall (faint l) evs →
  ∃ s', run evs s = Some (s', []) ∧ wf s'
    ∧ phase l s' = phase l s + length evs
    ∧ currentLetterIndex s' = currentLetterIndex s
    ∧ sameBooks s s'.
Proof.
  induction evs as [ | e evs IH]; intros s Hwf Hall.
  - exists s. cbn. rewrite Nat.add_0_r. split_and!; try done; by repeat split.
  - apply Forall_cons in Hall as [He Hall].
    destruct e as [now data | | | | ]; try done. destruct He as (Hr & Hd & Hc).
    set (s1 := updateStability l s).
    assert (Hwf1 : wf s1) by by apply updateStability_wf.
    assert (Hp1 : phase l s1 = S (phase l s)).
    { unfold s1. rewrite updateStability_eq. unfold phase, runLength. cbn.
      rewrite (decide_True (P := Some l = Some l)) by done. by case_decide. }
    destruct (IH s1 Hwf1 Hall) as (s2 & Hrun & Hwf2 & Hp2 & Hi2 & Hb2).
    exists s2. cbn [run step].
    rewrite (handlePrediction_candidate now data s Hr) by tauto.
    rewrite Hd. fold s1. cbn [mbind option_bind]. rewrite Hrun. cbn.
    split_and!; try done.
    + rewrite Hp2, Hp1. lia.
    + rewrite Hi2. unfold s1. by rewrite updateStability_eq.
    + pose proof (updateStability_sameBooks l s) as Hb1. fold s1 in Hb1.
      destruct Hb2 as (? & ? & ? & ? & ? & ? & ? & ?).
      destruct Hb1 as (? & ? & ? & ? & ? & ? & ? & ?).
      repeat split; congruence.
Qed.

(** X7: observations below the threshold still count towards the run.
    Frames of one label below the threshold are never confirmed and
    change nothing but the stability state; but once two or more of them
    have been counted, the first frame of that label at or above the
    threshold is confirmed at once. *)
Theorem faint_frames_count_towards_run l evs e s :
  wf s → Forall (faint l) evs → 2 ≤ length evs → confident l e →
  (∃ s1, run evs s = Some (s1, []) ∧ sameBooks s s1
         ∧ lastPrediction s1 = Some l
         ∧ predictionStabilityCount s1 = phase l s + length evs)
  ∧ (∃ s' verdict, run (evs ++ [e]) s = Some (s', [verdict])
       ∧ verdict = (if decide (letters !! currentLetterIndex s = Some l)
                    then Correct else Incorrect l)).
Proof.
  intros Hwf Hall Hlen He.
  destruct (faint_run l evs s Hwf Hall) as (s1 & Hrun & Hwf1 & Hp & Hi & Hb).
  assert (Hlast : lastPrediction s1 = Some l).
  { unfold phase in Hp at 1. case_decide; [ done | lia ]. }
  assert (Hcount : predictionStabilityCount s1 = phase l s + length evs).
  { unfold phase in Hp at 1. by rewrite decide_True in Hp. }
  split; [ by exists s1 | ].
  destruct e as [now data | | | | ]; try done. destruct He as (Hr & Hd & Hc).
  rewrite run_app, Hrun. cbn [mbind option_bind run step].
  destruct (handlePrediction_handled now data s1 Hwf1) as (s' & out & -> & Hh & _).
  cbn. exists s'.
  assert (Hrun3 : 3 ≤ runLength (detectedSinhala data) s1).
  { unfold runLength. rewrite Hd, decide_True by done. lia. }
  rewrite <- Hi.
  inversion Hh as [Hr' | Hr' Hno | s2 _ _ _ Hexp Hs2 | s2 _ _ _ Hexp Hs2];
    subst; try congruence; try tauto; cbn.
  - eexists. split; [ done | ]. by rewrite decide_True.
  - eexists. split; [ done | ]. by rewrite decide_False.
Qed.

Lemma faint_frames_count_towards_run_witness :
  ∃ s' verdict,
    run (replicate 2
           (Message "2025-01-01T00:00:08.000Z"
              {| ready := true; predicted_action := "a_"; confidence := 1 # 2 |})
         ++ [frame_a]) initial
    = Some (s', [verdict])
    ∧ verdict = Correct.
Proof.
  destruct (faint_frames_count_towards_run "à¶…"
              (replicate 2
                 (Message "2025-01-01T00:00:08.000Z"
                    {| ready := true; predicted_action := "a_"; confidence := 1 # 2 |}))
              frame_a initial)
    as (_ & s' & verdict & Hrun & Hv).
  - split; [ cbn; lia | ].
    vm_compute. repeat constructor; eexists; reflexivity.
  - cbn. repeat constructor; by vm_compute.
  - cbn. lia.
  - split_and!; [ reflexivity | by vm_compute | by vm_compute ].
  - exists s', verdict. split; [ exact Hrun | exact Hv ].
Defined.

(** ** Advancing through the catalog *)

Lemma moveToNextLetter_index s :
  currentLetterIndex s < length letters →
  currentLetterIndex (moveToNextLetter true s)
  = S (currentLetterIndex s) `mod` length letters.
Proof.
  intros Hi. remember (length letters) as n eqn:Hn.
  unfold moveToNextLetter. rewrite <- Hn.
  cbn [currentLetterIndex set_currentLetterIndex].
  case_decide as Hlast.
  - assert (S (currentLetterIndex s) = n) as -> by lia.
    by rewrite Nat.Div0.mod_same.
  - rewrite Nat.mod_small; [ done | lia ].
Qed.

(** X8: advancing with "start over" confirmed walks the catalog as a
    cycle: [k] advances from index [i] end on index [(i + k) mod n], for
    a catalog of [n] letters; so as many advances as there are letters
    come back to the letter they started from, with the round cleared. *)
Theorem advancing_cycles_through_catalog k s :
  currentLetterIndex s < length letters →
  currentLetterIndex (Nat.iter k (moveToNextLetter true) s)
  = (currentLetterIndex s + k) `mod` length letters
  ∧ (1 ≤ k → roundCleared (Nat.iter k (moveToNextLetter true) s))
  ∧ sameTotals s (Nat.iter k (moveToNextLetter true) s).
Proof.
  intros Hi. induction k as [ | k (IHi & IHc & IHt)].
  - rewrite Nat.add_0_r, Nat.mod_small by done.
    split_and!; [ done | lia | by repeat split ].
  - rewrite Nat.iter_succ. set (s1 := Nat.iter k (moveToNextLetter true) s) in *.
    assert (Hi1 : currentLetterIndex s1 < length letters).
    { rewrite IHi. by apply Nat.mod_upper_bound. }
    split_and!.
    + rewrite moveToNextLetter_index, IHi by done.
      replace (currentLetterIndex s + S k) with (currentLetterIndex s + k + 1) by lia.
      rewrite <- (Nat.add_1_r ((currentLetterIndex s + k) `mod` length letters)).
      by rewrite Nat.Div0.add_mod_idemp_l.
    + intros _. unfold moveToNextLetter. by case_decide.
    + assert (Hsame : sameTotals s1 (moveToNextLetter true s1)).
      { unfold moveToNextLetter. case_decide; by repeat split. }
      destruct IHt as (? & ? & ? & ? & ? & ?).
      destruct Hsame as (? & ? & ? & ? & ? & ?).
      repeat split; congruence.
Qed.

Lemma advancing_cycles_through_catalog_witness :
  currentLetterIndex
    (Nat.iter 10 (moveToNextLetter true) (set_currentLetterIndex 4 heldTwice)) = 4.
Proof.
  destruct (advancing_cycles_through_catalog 10 (set_currentLetterIndex 4 heldTwice))
    as (Hidx & _).
  - cbn. lia.
  - exact Hidx.
Defined.

Lemma moveToNextLetter_inside startOver s :
  S (currentLetterIndex s) < length letters →
  currentLetterIndex (moveToNextLetter startOver s) = S (currentLetterIndex s).
Proof.
  intros Hin. unfold moveToNextLetter.
  cbn [currentLetterIndex set_currentLetterIndex].
  by rewrite decide_False by lia.
Qed.

Lemma listeners_advance startOver n : ∀ a s,
  currentLetterIndex s + n < length letters →
  currentLetterIndex
    (foldl (λ s i, moveToNextLetter (startOver i) s) s (seq a n))
  = currentLetterIndex s + n.
Proof.
  induction n as [ | n IH]; intros a s Hroom; cbn [seq foldl].
  - lia.
  - rewrite IH; rewrite moveToNextLetter_inside; lia.
Qed.

(** X9: every call of [initPracticeMode], one per opened connection,
    leaves one more click listener on the next button; and one click
    runs all of them, so with [n] listeners and room in the catalog the
    click advances by [n] letters, not by one. *)
Theorem next_click_advances_once_per_listener :
  (∀ n pr, nextListeners (Nat.iter n initPracticeModeOnOpen pr) = nextListeners pr + n
           ∧ currentLetterIndex (session (Nat.iter n initPracticeModeOnOpen pr))
             = currentLetterIndex (session pr))
  ∧ (∀ startOver pr,
       currentLetterIndex (session pr) + nextListeners pr < length letters →
       currentLetterIndex (session (nextButtonClick startOver pr))
       = currentLetterIndex (session pr) + nextListeners pr).
Proof.
  split.
  - intros n pr. induction n as [ | n [IHn IHi]]; [ cbn; lia | ].
    rewrite Nat.iter_succ. cbn. rewrite IHn. split; [ lia | ].
    rewrite <- IHi. unfold initPracticeMode, loadProgress.
    by destruct (practiceProgress _).
  - intros startOver pr Hroom. cbn. by apply listeners_advance.
Qed.

Lemma next_click_advances_once_per_listener_witness :
  currentLetterIndex
    (session (nextButtonClick (λ _, false)
                (Nat.iter 2 initPracticeModeOnOpen practiceLoaded))) = 2.
Proof.
  apply (proj2 next_click_advances_once_per_listener (λ _, false)
           (Nat.iter 2 initPracticeModeOnOpen practiceLoaded)).
  vm_compute. lia.
Defined.

(** ** The capture timer and the sockets *)

(** X10: whatever the browser delivers after the page has loaded, at
    most one capture interval is live, and it is the one held in
    [captureTimer]. *)
Theorem one_capture_timer es :
  intervals (deliverAll es pageLoaded)
  = match captureTimer (deliverAll es pageLoaded) with
    | Some id => [id]
    | None => []
    end
  ∧ length (intervals (deliverAll es pageLoaded)) ≤ 1.
Proof.
  pose proof (loaded_oneTimer es) as H. unfold oneTimer in H.
  split; [ exact H | ]. rewrite H.
  destruct (captureTimer _); cbn; lia.
Qed.

Lemma startCapturing_held p : is_Some (captureTimer p) → startCapturing p = p.
Proof.
  intros [id Ht]. unfold startCapturing. rewrite Ht.
  by destruct (negb _ || negb _).
Qed.

(** X11: starting the capture twice is the same as starting it once, and
    so is stopping it; starting does nothing while a timer is held or
    while the current socket is not open. *)
Theorem capture_start_stop_idempotent p :
  startCapturing (startCapturing p) = startCapturing p
  ∧ stopCapturing (stopCapturing p) = stopCapturing p
  ∧ (is_Some (captureTimer p) → startCapturing p = p)
  ∧ (readyState p ≠ Some OPEN → startCapturing p = p).
Proof.
  split_and!.
  - destruct (negb (video p) || negb (wsOpen p)) eqn:Hguard.
    + assert (H : startCapturing p = p) by (unfold startCapturing; by rewrite Hguard).
      by rewrite !H.
    + destruct (captureTimer p) as [id | ] eqn:Ht.
      * assert (H : startCapturing p = p) by (apply startCapturing_held; by eexists).
        by rewrite !H.
      * apply startCapturing_held. unfold startCapturing.
        rewrite Hguard, Ht. by eexists.
  - unfold stopCapturing. destruct (captureTimer p) eqn:Ht; [ done | by rewrite Ht ].
  - apply startCapturing_held.
  - intros Hno. unfold startCapturing, wsOpen.
    rewrite bool_decide_eq_false_2 by done. cbn. by rewrite orb_true_r.
Qed.

Lemma capture_start_stop_idempotent_witness :
  startCapturing connected = connected
  ∧ startCapturing connecting = connecting.
Proof.
  destruct (capture_start_stop_idempotent connected) as (_ & _ & Hheld & _).
  destruct (capture_start_stop_idempotent connecting) as (_ & _ & _ & Hclosed).
  split.
  - apply Hheld. by eexists.
  - apply Hclosed. by vm_compute.
Defined.

Lemma onclose_effect k p :
  let p' := onclose (set_sockets (<[k := CLOSED]> (sockets p)) p) in
  captureTimer p' = None
  ∧ (oneTimer p → intervals p' = [])
  ∧ timeouts p' = timeouts p ++ [(2000, InitWebSocket)]
  ∧ sockets p' = <[k := CLOSED]> (sockets p)
  ∧ ws p' = ws p ∧ sent p' = sent p ∧ video p' = video p.
Proof.
  cbn. unfold stopCapturing. cbn. unfold oneTimer.
  destruct (captureTimer p) as [id | ] eqn:Ht; cbn; split_and!; try done.
  intros ->. cbn. by rewrite decide_False by (intros H; by apply H).
Qed.

Lemma timeout_fires p pending delay :
  timeouts p = pending ++ [(delay, InitWebSocket)] →
  deliver (TimeoutFired (length pending)) p = initWebSocket (set_timeouts pending p).
Proof.
  intros Hto. cbn. rewrite Hto, lookup_app_r, Nat.sub_diag by done. cbn.
  replace (delete (length pending) (pending ++ [(delay, InitWebSocket)]))
    with pending; [ done | ].
  rewrite (delete_middle pending []). by rewrite app_nil_r.
Qed.

Lemma opened_starts_capture p k :
  video p = true → captureTimer p = None → ws p = Some k →
  k < length (sockets p) →
  deliver (Opened k) p
  = set_captureTimer (Some (nextTimerId p))
      (set_intervals (intervals p ++ [nextTimerId p])
         (set_nextTimerId (S (nextTimerId p))
            (set_sockets (<[k := OPEN]> (sockets p)) p))).
Proof.
  intros Hv Ht Hw Hk. cbn. unfold onopen, startCapturing, wsOpen, readyState.
  cbn. rewrite Hv, Hw, Ht. cbn. rewrite list_lookup_insert_eq by done.
  by rewrite bool_decide_eq_true_2.
Qed.

(** X12: losing the connection and getting it back.  From any page on
    which the video plays, a lost connection (with or without an error),
    the queued reconnect firing, and the new socket opening leave [ws] on
    the new socket, open, with the capture timer running again, no
    timeout left over and no frame sent meanwhile; no reload is needed. *)
Theorem reconnect_resumes_capture f k p :
  video p = true →
  let p' := deliverAll (failureEvents f k
                        ++ [TimeoutFired (length (timeouts p));
                            Opened (length (sockets p))]) p in
  ws p' = Some (length (sockets p))
  ∧ readyState p' = Some OPEN
  ∧ is_Some (captureTimer p')
  ∧ (oneTimer p → length (intervals p') = 1)
  ∧ timeouts p' = timeouts p
  ∧ sent p' = sent p.
Proof.
  intros Hvideo.
  assert (Hgen : ∀ p0, video p0 = true → sent p0 = sent p → timeouts p0 = timeouts p →
    length (sockets p0) = length (sockets p) → (oneTimer p → oneTimer p0) →
    let p' := deliverAll [Closed k; TimeoutFired (length (timeouts p));
                          Opened (length (sockets p))] p0 in
    ws p' = Some (length (sockets p))
    ∧ readyState p' = Some OPEN
    ∧ is_Some (captureTimer p')
    ∧ (oneTimer p → length (intervals p') = 1)
    ∧ timeouts p' = timeouts p
    ∧ sent p' = sent p).
  { intros p0 Hv Hsent Hto Hlen Hone.
    unfold deliverAll. cbn [foldl].
    change (deliver (Closed k) p0)
      with (onclose (set_sockets (<[k:=CLOSED]> (sockets p0)) p0)).
    destruct (onclose_effect k p0) as (Ht1 & Hi1 & Hto1 & Hs1 & Hw1 & Hse1 & Hv1).
    set (p1 := onclose (set_sockets (<[k:=CLOSED]> (sockets p0)) p0)) in *.
    rewrite Hto in Hto1.
    rewrite (timeout_fires p1 (timeouts p) 2000 Hto1).
    set (p2 := initWebSocket (set_timeouts (timeouts p) p1)).
    assert (Hs2 : sockets p2 = sockets p1 ++ [CONNECTING]) by reflexivity.
    assert (Hw2 : ws p2 = Some (length (sockets p1))) by reflexivity.
    assert (Hv2 : video p2 = video p1) by reflexivity.
    assert (Ht2 : captureTimer p2 = captureTimer p1) by reflexivity.
    assert (Hi2 : intervals p2 = intervals p1) by reflexivity.
    assert (Hto2 : timeouts p2 = timeouts p) by reflexivity.
    assert (Hse2 : sent p2 = sent p1) by reflexivity.
    clearbody p2. clearbody p1.
    assert (Hlen1 : length (sockets p1) = length (sockets p)).
    { by rewrite Hs1, length_insert. }
    rewrite Hlen1 in Hw2.
    assert (Hlen2 : length (sockets p) < length (sockets p2)).
    { rewrite Hs2, length_app, Hlen1. cbn. lia. }
    rewrite (opened_starts_capture p2 (length (sockets p)))
      by congruence || done.
    unfold readyState. cbn. rewrite Hw2. cbn.
    rewrite list_lookup_insert_eq by done.
    split_and!.
    - done.
    - done.
    - by eexists.
    - intros Hp. by rewrite Hi2, (Hi1 (Hone Hp)).
    - done.
    - congruence. }
  destruct f; cbn [failureEvents app].
  - change (deliverAll (Errored k :: ?l) p) with
      (deliverAll l (deliver (Errored k) p)).
    apply (Hgen (set_sockets (<[k:=CLOSED]> (sockets p)) p)); try done.
    cbn. by rewrite length_insert.
  - by apply Hgen.
Qed.

Lemma reconnect_resumes_capture_witness :
  readyState
    (deliverAll (failureEvents TransportError 0 ++ [TimeoutFired 0; Opened 1])
       connected) = Some OPEN
  ∧ is_Some
      (captureTimer
         (deliverAll (failureEvents TransportError 0 ++ [TimeoutFired 0; Opened 1])
            connected)).
Proof.
  destruct (reconnect_resumes_capture TransportError 0 connected)
    as (_ & Hopen & Htimer & _).
  - reflexivity.
  - split; [ exact Hopen | exact Htimer ].
Defined.

Lemma deliver_socketsInOrder e p : socketsInOrder p → socketsInOrder (deliver e p).
Proof.
  assert (Hinit : ∀ q, Forall (λ t, t = (2000, InitWebSocket)) (timeouts q) →
            Forall (λ frame, frame.1 < length (sockets q)) (sent q) →
            socketsInOrder (initWebSocket q)).
  { intros q Hto Hse. split_and!; cbn.
    - rewrite length_app. cbn. lia.
    - done.
    - eapply Forall_impl; [ exact Hse | ]. intros x Hx. cbn in Hx.
      rewrite length_app. lia. }
  assert (Hstart : ∀ q, socketsInOrder q → socketsInOrder (startCapturing q)).
  { intros q Hq. unfold startCapturing.
    destruct (negb _ || negb _); [ done | ]. by destruct (captureTimer q). }
  assert (Hstop : ∀ q, socketsInOrder q → socketsInOrder (stopCapturing q)).
  { intros q Hq. unfold stopCapturing. by destruct (captureTimer q). }
  assert (Hset : ∀ q k r, socketsInOrder q →
            socketsInOrder (set_sockets (<[k := r]> (sockets q)) q)).
  { intros q k r (Hws & Hto & Hse). unfold socketsInOrder. cbn.
    rewrite length_insert. split_and!; try done.
    destruct (ws q); [ done | ].
    rewrite Hws. done. }
  intros Hp. destruct e as [ | k | k | k | id | blob | j]; cbn.
  - destruct Hp as (_ & Hto & Hse). by apply Hinit.
  - by apply Hstart, Hset.
  - by apply Hset.
  - unfold onclose.
    destruct (Hstop _ (Hset p k CLOSED Hp)) as (Hws & Hto & Hse).
    split_and!; cbn; [ done | | done ].
    apply Forall_app. split; [ done | by repeat constructor ].
  - case_decide; [ | done ]. unfold capture.
    destruct (negb _); [ | done ]. by apply Hstop.
  - unfold frameEncoded. destruct blob as [buffer | ]; [ | done ].
    destruct (ws p) as [k | ] eqn:Hk; [ | done ].
    case_bool_decide as Hopen; [ | done ].
    destruct Hp as (Hws & Hto & Hse). unfold socketsInOrder. cbn.
    rewrite Hk in *.
    split_and!; [ done | done | ].
    apply Forall_app. split; [ done | ]. repeat constructor. cbn.
    by eapply lookup_lt_Some.
  - destruct (timeouts p !! j) as [[delay cb] | ] eqn:Hj; [ | done ].
    destruct cb. destruct Hp as (Hws & Hto & Hse). apply Hinit; cbn; [ | done ].
    by apply Forall_delete.
Qed.

(** X13: whatever the browser delivers after the page has loaded, [ws]
    is the socket constructed last (an earlier socket never becomes
    current again), the pending timeouts are reconnects after 2000 ms and
    nothing else, and every frame was sent to a socket that exists. *)
Theorem current_socket_is_newest es :
  let p := deliverAll es pageLoaded in
  match ws p with
  | Some k => S k = length (sockets p)
  | None => sockets p = []
  end
  ∧ Forall (λ t, t = (2000, InitWebSocket)) (timeouts p)
  ∧ Forall (λ frame, frame.1 < length (sockets p)) (sent p).
Proof.
  change (socketsInOrder (deliverAll es pageLoaded)).
  unfold deliverAll.
  assert (H0 : socketsInOrder pageLoaded) by (split_and!; by cbn).
  revert H0. generalize pageLoaded.
  induction es as [ | e es IH]; intros p Hp; [ exact Hp | ].
  cbn. apply IH. by apply deliver_socketsInOrder.
Qed.

(** ** The service address *)

Lemma prefix_empty s : String.prefix "" s = true.
Proof. by destruct s. Qed.

(** X14: the socket address is secure exactly when the page is: it
    starts with [wss://] if and only if the page protocol is [https:],
    and with [ws://] otherwise; a page without a host gets the address of
    the local service. *)
Theorem buildWsUrl_scheme protocol host :
  (String.prefix "wss://" (buildWsUrl protocol host) = true ↔ protocol = "https:")
  ∧ (String.prefix "ws://" (buildWsUrl protocol host) = true ↔ protocol ≠ "https:")
  ∧ buildWsUrl protocol "" = buildWsUrl protocol "localhost:8001"
  ∧ buildWsUrl "https:" "" = "wss://localhost:8001/ws/predict".
Proof.
  unfold buildWsUrl. split_and!.
  - destruct (decide (protocol = "https:")) as [Hs | Hs]; simpl.
    + rewrite prefix_empty. by split.
    + split; [ discriminate | intros H; contradiction ].
  - destruct (decide (protocol = "https:")) as [Hs | Hs]; simpl.
    + split; [ discriminate | intros H; contradiction ].
    + rewrite prefix_empty. by split.
  - reflexivity.
  - reflexivity.
Qed.

(** ** Keyboard navigation *)

(** X15: arrow keys in the letter grid never move the focus outside the
    grid and never wrap around: the focus moves only to an existing
    item, and then the opposite key brings it back. *)
Theorem navigateLetterGrid_stays_and_returns key cols items i j :
  (0 ≤ i < items)%Z →
  navigateLetterGrid key cols items i = Some j →
  (0 ≤ j < items)%Z
  ∧ navigateLetterGrid (opposite key) cols items j = Some i.
Proof.
  intros Hi Hnav. unfold navigateLetterGrid in *.
  case_decide as Hj; [ | done ]. injection Hnav as <-.
  split; [ done | ].
  destruct key; cbn; rewrite decide_True by lia; f_equal; lia.
Qed.

Lemma navigateLetterGrid_stays_and_returns_witness :
  navigateLetterGrid ArrowUp 5 10 7 = Some 2%Z
  ∧ navigateLetterGrid ArrowDown 5 10 2 = Some 7%Z
  ∧ navigateLetterGrid ArrowRight 5 10 9 = None.
Proof.
  destruct (navigateLetterGrid_stays_and_returns ArrowDown 5 10 2 7)
    as [_ Hback]; [ lia | reflexivity | ].
  split; [ exact Hback | ]. split; reflexivity.
Defined.

(** X16: arrow keys among the answer options walk a cycle: from an
    option, the next keys lead to the following one and from the last to
    the first, the previous keys do the reverse, and a step forward
    followed by a step back returns to the option. *)
Theorem navigateAnswerOptions_cycle options i :
  (0 ≤ i < options)%Z →
  navigateAnswerOptions ArrowRight options i = Some ((i + 1) `mod` options)%Z
  ∧ navigateAnswerOptions ArrowDown options i = Some ((i + 1) `mod` options)%Z
  ∧ navigateAnswerOptions ArrowLeft options i = Some ((i - 1) `mod` options)%Z
  ∧ navigateAnswerOptions ArrowUp options i = Some ((i - 1) `mod` options)%Z
  ∧ navigateAnswerOptions ArrowLeft options ((i + 1) `mod` options) = Some i
  ∧ navigateAnswerOptions ArrowRight options ((i - 1) `mod` options) = Some i.
Proof.
  intros Hi.
  assert (Hrange : ∀ x, (0 ≤ x `mod` options < options)%Z).
  { intros x. apply Z.mod_pos_bound. lia. }
  assert (Hnext : ∀ key x, key = ArrowRight ∨ key = ArrowDown →
            (0 ≤ x < options)%Z →
            navigateAnswerOptions key options x = Some ((x + 1) `mod` options)%Z).
  { intros key x Hkey Hx. unfold navigateAnswerOptions.
    rewrite decide_False by lia.
    assert (Z.rem (x + 1) options = ((x + 1) `mod` options)%Z) as Hrem
      by (apply Z.rem_mod_nonneg; lia).
    destruct Hkey as [-> | ->]; rewrite Hrem; by rewrite decide_True by apply Hrange. }
  assert (Hprev : ∀ key x, key = ArrowLeft ∨ key = ArrowUp →
            (0 ≤ x < options)%Z →
            navigateAnswerOptions key options x = Some ((x - 1) `mod` options)%Z).
  { intros key x Hkey Hx. unfold navigateAnswerOptions.
    rewrite decide_False by lia.
    assert (Z.rem (x - 1 + options) options = ((x - 1) `mod` options)%Z) as Hrem.
    { rewrite Z.rem_mod_nonneg by lia.
      replace (x - 1 + options)%Z with (x - 1 + 1 * options)%Z by lia.
      apply Z.mod_add. lia. }
    destruct Hkey as [-> | ->]; rewrite Hrem; by rewrite decide_True by apply Hrange. }
  split_and!.
  - apply Hnext; auto.
  - apply Hnext; auto.
  - apply Hprev; auto.
  - apply Hprev; auto.
  - rewrite Hprev by (auto || apply Hrange). f_equal.
    rewrite Zminus_mod_idemp_l. replace (i + 1 - 1)%Z with i by lia.
    apply Z.mod_small. lia.
  - rewrite Hnext by (auto || apply Hrange). f_equal.
    rewrite Zplus_mod_idemp_l. replace (i - 1 + 1)%Z with i by lia.
    apply Z.mod_small. lia.
Qed.

Lemma navigateAnswerOptions_cycle_witness :
  navigateAnswerOptions ArrowRight 4 3 = Some 0%Z
  ∧ navigateAnswerOptions ArrowLeft 4 0 = Some 3%Z.
Proof.
  destruct (navigateAnswerOptions_cycle 4 3) as (Hnext & _ & _ & _ & Hback & _);
    [ lia | ].
  split; [ exact Hnext | exact Hback ].
Defined.

(** ** Preferences *)

(** X17: toggling the high-contrast mode flips the flag, announces it
    when the live region exists, leaves the reduced-motion flag alone, and
    stores exactly the two flags the manager then has; toggling twice
    restores the flag and the stored item. *)
Theorem toggleHighContrast_stores_flags m :
  let '(m1, stored1) := toggleHighContrast m in
  let '(m2, stored2) := toggleHighContrast m1 in
  highContrast m1 = negb (highContrast m)
  ∧ reducedMotion m1 = reducedMotion m
  ∧ stored1 = Some (highContrast m1, reducedMotion m1)
  ∧ highContrast m2 = highContrast m
  ∧ stored2 = Some (highContrast m, reducedMotion m)
  ∧ length (announced m2) = length (announced m) + (if announcer m then 2 else 0).
Proof.
  destruct m as [ini prefs ann kb hc rm msgs].
  destruct hc, ann; cbn; split_and!; try done; rewrite !length_app; cbn; lia.
Qed.

(** X18: constructing the manager.  The construction fails exactly when
    the system prefers a dark colour scheme, since the class has no
    [enableDarkMode] to call.  Otherwise the manager is initialised with
    the live region, the flags follow the system preferences only, and the
    stored preferences are kept but not applied: a stored high-contrast
    choice does not switch the mode on. *)
Theorem newManager_follows_system_only stored media :
  (newManager stored media = None ↔ prefersDark media = true)
  ∧ (∀ m, newManager stored media = Some m →
       isInitialized m = true ∧ announcer m = true
       ∧ preferences m = stored
       ∧ highContrast m = prefersHighContrast media
       ∧ reducedMotion m = prefersReducedMotion media).
Proof.
  destruct media as [rm hc dark]. unfold newManager, init, detectSystemPreferences.
  cbn. split.
  - destruct dark; cbn; split; done.
  - intros m. destruct dark; cbn; [ done | ].
    intros [= <-]. by destruct rm, hc.
Qed.

Lemma newManager_follows_system_only_witness :
  ∃ m, newManager (Some (true, false))
         {| prefersReducedMotion := false; prefersHighContrast := false;
            prefersDark := false |} = Some m
       ∧ highContrast m = false.
Proof.
  eexists. split; [ reflexivity | ].
  destruct (newManager_follows_system_only (Some (true, false))
              {| prefersReducedMotion := false; prefersHighContrast := false;
                 prefersDark := false |}) as [_ Hflags].
  by destruct (Hflags _ eq_refl) as (_ & _ & _ & Hhc & _).
Defined.
